(** * Hospital graph ETL: a model of [hospital_bulk_csv_write.py]

    The Python module [hospital_neo4j_etl/src/hospital_bulk_csv_write.py]
    sends a fixed sequence of Cypher statements to a Neo4j store, wrapped in
    [@retry(tries=3, delay=10)].  The program's behaviour is the behaviour
    of those statements, so the development has three layers:

    - the property-graph store (nodes, relationships, uniqueness
      constraints) and the Cypher clauses the statements are made of
      ([MERGE] of a node pattern, [MATCH] by label and property, [MERGE] of
      a relationship, [SET]);
    - the statements of the module, written as data that mirrors the
      query text, the attempt [run_attempt] (the body of
      [load_hospital_graph_from_csv]) and the [retry] decorator;
    - the properties.

    Conventions of the store model (Neo4j's documented semantics):
    - a property is never stored with a null value: [SET n.k = null]
      removes [k];
    - [MERGE] of a pattern one of whose property values is null is an error;
    - creating a node that breaks a uniqueness constraint is an error;
    - a statement sent with [session.run] is one transaction: when it
      fails, none of its writes is kept;
    - integers are mathematical integers ([Z]); the 64-bit range of the
      store is not represented.
    The sources are given as the rows [LOAD CSV WITH HEADERS] yields: maps
    from column name to text, an absent column (or empty field) being null. *)

From stdpp Require Import gmap strings list fin_maps.
From Stdlib Require Import ZArith Lia Ascii.

Open Scope Z_scope.

(** ** Scalar functions of the query language *)

(** [toInteger] and [toFloat] are functions of the store, not of this
    repository; the statements only rely on their result being a value or
    null ([None]).  [Cfloat] is the store's floating point type. *)
Class CypherFunctions := {
  Cfloat : Type;
  Cfloat_eq_dec :: EqDecision Cfloat;
  toInteger : string → option Z;
  toFloat : string → option Cfloat
}.

Inductive NodeKind := Hospital | Payer | Physician | Patient | Visit | Review.
Inductive RelKind := HAS | AT | TREATS | COVERED_BY | WRITES | EMPLOYS.

#[global] Instance NodeKind_eq_dec : EqDecision NodeKind.
Proof. solve_decision. Defined.
#[global] Instance RelKind_eq_dec : EqDecision RelKind.
Proof. solve_decision. Defined.

(** [NODES = ["Hospital", "Payer", "Physician", "Patient", "Visit", "Review"]] *)
Definition NODES : list NodeKind :=
  [Hospital; Payer; Physician; Patient; Visit; Review].

Inductive error :=
  | NullMerge            (* MERGE with a null property value *)
  | ConstraintViolation  (* a uniqueness constraint would be broken *)
  | ServiceUnavailable.  (* the store cannot be reached *)

#[global] Instance error_eq_dec : EqDecision error.
Proof. solve_decision. Defined.

(** ** The property graph and the clauses of the query language *)

Section Graph.
Context `{CF : CypherFunctions}.

Inductive value := VInt (z : Z) | VStr (s : string) | VFloat (f : Cfloat).

#[global] Instance value_eq_dec : EqDecision value.
Proof. solve_decision. Defined.

Record node := Node { n_label : NodeKind; n_props : gmap string value }.

(** A relationship; its endpoints are positions in the store's node list
    (the store's internal node identities). *)
Record rel := Rel {
  r_type : RelKind; r_src : nat; r_dst : nat; r_props : gmap string value }.

Record store := Store {
  nodes : list node;
  rels : list rel;
  constraints : list (NodeKind * string)  (* (label, property) IS UNIQUE *)
}.

Definition empty_store : store := Store [] [] [].

(** *** Expressions over a row of a CSV source *)

Inductive expr :=
  | Col (c : string)         (* [row.c] *)
  | ToInteger (c : string)   (* [toInteger(row.c)] *)
  | ToFloat (c : string).    (* [toFloat(row.c)] *)

Definition eval (r : gmap string string) (e : expr) : option value :=
  match e with
  | Col c => VStr <$> r !! c
  | ToInteger c => VInt <$> (r !! c ≫= toInteger)
  | ToFloat c => VFloat <$> (r !! c ≫= toFloat)
  end.

(** The property map of a pattern [{k1: e1, ..., kn: en}]; [None] when one
    of the values is null. *)
Fixpoint eval_pattern (r : gmap string string) (pat : list (string * expr))
    : option (gmap string value) :=
  match pat with
  | [] => Some ∅
  | (k, e) :: pat' =>
      match eval r e, eval_pattern r pat' with
      | Some v, Some m => Some (<[k := v]> m)
      | _, _ => None
      end
  end.

(** *** Matching *)

(** [n] satisfies [(:l {pat})]: it has the label and every property of the
    pattern with that value. *)
Definition node_matches (l : NodeKind) (pat : gmap string value) (n : node) : bool :=
  bool_decide (n_label n = l) &&
  bool_decide (map_Forall (λ k v, n_props n !! k = Some v) pat).

(** The elements of [l] that satisfy [p], each with its position. *)
Definition matches {A} (p : A → bool) (l : list A) : list (nat * A) :=
  List.filter (λ ix, p ix.2) (imap pair l).

(** [MATCH (x:l {k: v})] where [v] may be null: null matches nothing. *)
Definition match_prop (l : NodeKind) (k : string) (v : option value) (σ : store)
    : list (nat * node) :=
  match v with
  | Some v => matches (node_matches l {[k := v]}) (nodes σ)
  | None => []
  end.

(** *** Uniqueness constraints *)

(** Would a node with label [l] and properties [m] break the constraint
    [c] in the presence of the nodes [ns]? *)
Definition violates (ns : list node) (l : NodeKind) (m : gmap string value)
    (c : NodeKind * string) : bool :=
  bool_decide (c.1 = l) &&
  match m !! c.2 with
  | Some v =>
      existsb (λ n, bool_decide (n_label n = l) &&
                    bool_decide (n_props n !! c.2 = Some v)) ns
  | None => false
  end.

(** Do the nodes [ns] themselves satisfy "[k] is unique among label [l]"? *)
Fixpoint unique_on (l : NodeKind) (k : string) (ns : list node) : bool :=
  match ns with
  | [] => true
  | n :: ns' =>
      negb (violates ns' (n_label n) (n_props n) (l, k)) && unique_on l k ns'
  end.

(** [CREATE CONSTRAINT IF NOT EXISTS FOR (n:l) REQUIRE n.k IS UNIQUE] *)
Definition create_constraint (l : NodeKind) (k : string) (σ : store)
    : store + error :=
  if bool_decide ((l, k) ∈ constraints σ) then inl σ
  else if unique_on l k (nodes σ)
  then inl (Store (nodes σ) (rels σ) (constraints σ ++ [(l, k)]))
  else inr ConstraintViolation.

(** *** SET *)

(** [SET x.k = v]: a null removes the property. *)
Definition set_prop (k : string) (v : option value) (m : gmap string value)
    : gmap string value :=
  match v with
  | Some v => <[k := v]> m
  | None => delete k m
  end.

(** [SET x.k1 = e1, ..., x.kn = en], left to right. *)
Definition apply_sets (r : gmap string string) (sets : list (string * expr))
    (m : gmap string value) : gmap string value :=
  foldl (λ m' ke, set_prop ke.1 (eval r ke.2) m') m sets.

Definition set_node (r : gmap string string) (sets : list (string * expr))
    (n : node) : node :=
  Node (n_label n) (apply_sets r sets (n_props n)).

Definition set_rel (r : gmap string string) (sets : list (string * expr))
    (e : rel) : rel :=
  Rel (r_type e) (r_src e) (r_dst e) (apply_sets r sets (r_props e)).

(** *** MERGE ... SET *)

(** Match-or-create on a list of entities: the entities satisfying [p] are
    bound and [u] (the [SET] clause) is applied to each of them; when there
    is none, [x0] is created, bound, and [u] applied to it. *)
Definition upsert {A} (p : A → bool) (u : A → A) (x0 : A) (l : list A) : list A :=
  if existsb p l then map (λ x, if p x then u x else x) l else l ++ [u x0].

(** [MERGE (x:l {pat}) SET sets] for the row [r].  The match is on the
    whole pattern; the node created when nothing matches has exactly the
    pattern's properties. *)
Definition merge_node_row (l : NodeKind) (pat sets : list (string * expr))
    (r : gmap string string) (σ : store) : store + error :=
  match eval_pattern r pat with
  | None => inr NullMerge
  | Some m =>
      if negb (existsb (node_matches l m) (nodes σ)) &&
         existsb (violates (nodes σ) l m) (constraints σ)
      then inr ConstraintViolation
      else inl (Store (upsert (node_matches l m) (set_node r sets) (Node l m)
                              (nodes σ))
                      (rels σ) (constraints σ))
  end.

Definition rel_matches (t : RelKind) (a b : nat) (e : rel) : bool :=
  bool_decide (r_type e = t) && bool_decide (r_src e = a) &&
  bool_decide (r_dst e = b).

(** [MERGE (a)-[x:t]->(b) SET sets] for the bound nodes [a] and [b]. *)
Definition merge_rel (t : RelKind) (r : gmap string string)
    (sets : list (string * expr)) (σ : store) (ab : nat * nat) : store :=
  Store (nodes σ)
        (upsert (rel_matches t ab.1 ab.2) (set_rel r sets) (Rel t ab.1 ab.2 ∅)
                (rels σ))
        (constraints σ).

End Graph.

(** ** The statements of [hospital_bulk_csv_write.py] *)

(** The six CSV sources, named by the module's path constants. *)
Inductive Csv :=
  | HOSPITALS_CSV_PATH | PAYERS_CSV_PATH | PHYSICIANS_CSV_PATH
  | PATIENTS_CSV_PATH | VISITS_CSV_PATH | REVIEWS_CSV_PATH.

Section Etl.
Context `{CF : CypherFunctions}.

(** [LOAD CSV WITH HEADERS FROM csv AS x MERGE (n:label {pattern}) SET set] *)
Record node_query := NodeQuery {
  nq_csv : Csv;
  nq_label : NodeKind;
  nq_pattern : list (string * expr);
  nq_set : list (string * expr)
}.

(** [(x:label {key: value})] in a [MATCH] clause. *)
Record endpoint := Endpoint {
  ep_label : NodeKind; ep_key : string; ep_value : expr }.

(** [LOAD CSV WITH HEADERS FROM csv AS x MATCH first MATCH second
    MERGE (a)-[r:type]->(b) SET set], where [a] is the node bound by the
    first [MATCH] when [rq_from_first], by the second otherwise. *)
Record rel_query := RelQuery {
  rq_csv : Csv;
  rq_first : endpoint;
  rq_second : endpoint;
  rq_type : RelKind;
  rq_from_first : bool;
  rq_set : list (string * expr)
}.

Definition hospital_nodes : node_query :=
  NodeQuery HOSPITALS_CSV_PATH Hospital
    [("id", ToInteger "hospital_id"); ("name", Col "hospital_name");
     ("state_name", Col "hospital_state")] [].

Definition payer_nodes : node_query :=
  NodeQuery PAYERS_CSV_PATH Payer
    [("id", ToInteger "payer_id"); ("name", Col "payer_name")] [].

Definition physician_nodes : node_query :=
  NodeQuery PHYSICIANS_CSV_PATH Physician
    [("id", ToInteger "physician_id"); ("name", Col "physician_name");
     ("dob", Col "physician_dob"); ("grad_year", Col "physician_grad_year");
     ("school", Col "medical_school")] [].

Definition patient_nodes : node_query :=
  NodeQuery PATIENTS_CSV_PATH Patient
    [("id", ToInteger "patient_id"); ("name", Col "patient_name");
     ("sex", Col "patient_sex"); ("dob", Col "patient_dob");
     ("blood_type", Col "patient_blood_type")] [].

Definition visit_nodes : node_query :=
  NodeQuery VISITS_CSV_PATH Visit
    [("id", ToInteger "visit_id")]
    [("room_number", ToInteger "room_number");
     ("admission_type", Col "admission_type");
     ("admission_date", Col "date_of_admission");
     ("test_results", Col "test_results");
     ("chief_complaint", Col "chief_complaint");
     ("treatment_description", Col "treatment_description");
     ("primary_diagnosis", Col "primary_diagnosis");
     ("discharge_date", Col "discharge_date");
     ("status", Col "visit_status")].

Definition review_nodes : node_query :=
  NodeQuery REVIEWS_CSV_PATH Review
    [("id", ToInteger "review_id"); ("physician_name", Col "physician_name");
     ("hospital_name", Col "hospital_name");
     ("patient_name", Col "patient_name"); ("text", Col "review")] [].

Definition node_queries : list node_query :=
  [hospital_nodes; payer_nodes; physician_nodes; patient_nodes;
   visit_nodes; review_nodes].

Definition has_rels : rel_query :=
  RelQuery VISITS_CSV_PATH
    (Endpoint Patient "id" (ToInteger "patient_id"))
    (Endpoint Visit "id" (ToInteger "visit_id"))
    HAS true [].

Definition at_rels : rel_query :=
  RelQuery VISITS_CSV_PATH
    (Endpoint Visit "id" (ToInteger "visit_id"))
    (Endpoint Hospital "id" (ToInteger "hospital_id"))
    AT true [].

Definition treats_rels : rel_query :=
  RelQuery VISITS_CSV_PATH
    (Endpoint Visit "id" (ToInteger "visit_id"))
    (Endpoint Physician "id" (ToInteger "physician_id"))
    TREATS false [].

Definition covered_by_rels : rel_query :=
  RelQuery VISITS_CSV_PATH
    (Endpoint Visit "id" (ToInteger "visit_id"))
    (Endpoint Payer "id" (ToInteger "payer_id"))
    COVERED_BY true
    [("service_date", Col "discharge_date");
     ("billing_amount", ToFloat "billing_amount")].

Definition writes_rels : rel_query :=
  RelQuery REVIEWS_CSV_PATH
    (Endpoint Visit "id" (ToInteger "visit_id"))
    (Endpoint Review "id" (ToInteger "review_id"))
    WRITES true [].

Definition rel_queries : list rel_query :=
  [has_rels; at_rels; treats_rels; covered_by_rels; writes_rels].

(** A statement sent to the store. *)
Inductive stmt :=
  | SetConstraint (l : NodeKind)
  | LoadNodes (q : node_query)
  | LoadRels (q : rel_query)
  | InferEmploys.

(** *** Execution of one statement *)

(** [_set_uniqueness_constraints(tx, node)]: the constraint is on [n.id]. *)
Definition _set_uniqueness_constraints (l : NodeKind) (σ : store) : store + error :=
  create_constraint l "id" σ.

(** The rows of a node query, in order; the first error ends the statement
    and nothing of it is kept. *)
Fixpoint load_nodes (q : node_query) (rows : list (gmap string string))
    (σ : store) : store + error :=
  match rows with
  | [] => inl σ
  | r :: rows' =>
      match merge_node_row (nq_label q) (nq_pattern q) (nq_set q) r σ with
      | inl σ' => load_nodes q rows' σ'
      | inr e => inr e
      end
  end.

Definition resolve (ep : endpoint) (r : gmap string string) (σ : store)
    : list (nat * node) :=
  match_prop (ep_label ep) (ep_key ep) (eval r (ep_value ep)) σ.

(** The (source, target) pairs a row binds: every node the first [MATCH]
    binds with every node the second one binds. *)
Definition bound_pairs (q : rel_query) (r : gmap string string) (σ : store)
    : list (nat * nat) :=
  (λ xy : nat * nat, if rq_from_first q then xy else (xy.2, xy.1)) <$>
    list_prod (resolve (rq_first q) r σ).*1 (resolve (rq_second q) r σ).*1.

Definition merge_rel_row (q : rel_query) (σ : store) (r : gmap string string)
    : store :=
  foldl (merge_rel (rq_type q) r (rq_set q)) σ (bound_pairs q r σ).

Definition load_rels (q : rel_query) (rows : list (gmap string string))
    (σ : store) : store :=
  foldl (merge_rel_row q) σ rows.

(** [WHERE (p.id + h.id) % 30 = 0].  [%] is the remainder of the truncated
    division.  A null operand makes the condition null, which [WHERE]
    rejects; the pipeline only ever stores integer [id]s, other operand
    types are not represented. *)
Definition employs_where (p h : node) : bool :=
  match n_props p !! "id", n_props h !! "id" with
  | Some (VInt a), Some (VInt b) => Z.rem (a + b) 30 =? 0
  | _, _ => false
  end.

(** The pairs bound by [MATCH (p:Physician) MATCH (h:Hospital) WHERE ...]. *)
Definition employs_pairs (σ : store) : list (nat * nat) :=
  ip ← matches (node_matches Physician ∅) (nodes σ);
  jh ← matches (node_matches Hospital ∅) (nodes σ);
  if employs_where ip.2 jh.2 then [(ip.1, jh.1)] else [].

Definition infer_employs (σ : store) : store :=
  foldl (merge_rel EMPLOYS ∅ []) σ (employs_pairs σ).

Definition exec_stmt (src : Csv → list (gmap string string)) (s : stmt)
    (σ : store) : store + error :=
  match s with
  | SetConstraint l => _set_uniqueness_constraints l σ
  | LoadNodes q => load_nodes q (src (nq_csv q)) σ
  | LoadRels q => inl (load_rels q (src (rq_csv q)) σ)
  | InferEmploys => inl (infer_employs σ)
  end.

(** *** The body of [load_hospital_graph_from_csv] *)

(** The statements in the order the function sends them. *)
Definition pipeline : list stmt :=
  (SetConstraint <$> NODES) ++ (LoadNodes <$> node_queries) ++
  (LoadRels <$> rel_queries) ++ [InferEmploys].

Record run_result := RunResult {
  final : store;            (* the store when the attempt ends *)
  sent : list stmt;         (* the statements sent, in order *)
  raised : option error     (* the exception that ended the attempt *)
}.

(** Send the statements one after the other; an exception ends the
    attempt.  [fault] is the number of statements the store still answers
    before it becomes unreachable ([None]: it stays reachable). *)
Fixpoint run_stmts (src : Csv → list (gmap string string)) (fault : option nat)
    (qs : list stmt) (σ : store) (tr : list stmt) : run_result :=
  match qs with
  | [] => RunResult σ tr None
  | q :: qs' =>
      match fault with
      | Some O => RunResult σ (tr ++ [q]) (Some ServiceUnavailable)
      | _ =>
          match exec_stmt src q σ with
          | inl σ' => run_stmts src (Nat.pred <$> fault) qs' σ' (tr ++ [q])
          | inr e => RunResult σ (tr ++ [q]) (Some e)
          end
      end
  end.

Definition run_attempt (src : Csv → list (gmap string string))
    (fault : option nat) (σ : store) : run_result :=
  run_stmts src fault pipeline σ [].

(** *** The [retry] decorator *)

(** What the decorated function acts on: the store, the number of attempts
    made so far and the delays slept so far (oldest first). *)
Record world := World {
  w_store : store;
  w_attempts : nat;
  w_slept : list Z
}.

(** [retry(tries, delay, backoff, jitter)(f)]: call [f]; on an exception,
    give up when no try is left, otherwise sleep [delay], update the delay
    and try again. *)
Fixpoint retry (f : world → world * option error) (tries : nat)
    (delay backoff jitter : Z) (w : world) : world * option error :=
  match tries with
  | O => (w, None)
  | S tries' =>
      match f w with
      | (w', None) => (w', None)
      | (w', Some e) =>
          match tries' with
          | O => (w', Some e)
          | S _ =>
              retry f tries' (delay * backoff + jitter) backoff jitter
                (World (w_store w') (w_attempts w') (w_slept w' ++ [delay]))
          end
      end
  end.

(** One call of the undecorated function: attempt number [w_attempts w]
    runs the whole pipeline on the current store; [faults n] is the fault
    of attempt [n]. *)
Definition attempt (src : Csv → list (gmap string string))
    (faults : nat → option nat) (w : world) : world * option error :=
  let res := run_attempt src (faults (w_attempts w)) (w_store w) in
  (World (final res) (S (w_attempts w)) (w_slept w), raised res).

(** [@retry(tries=3, delay=10)], with the decorator's defaults
    [backoff=1] and [jitter=0]. *)
Definition load_hospital_graph_from_csv (src : Csv → list (gmap string string))
    (faults : nat → option nat) (w : world) : world * option error :=
  retry (attempt src faults) 3 10 1 0 w.

End Etl.

(** ** What the properties are stated with *)

Section Specs.
Context `{CF : CypherFunctions}.

(** The identifier of a node: its [id] property. *)
Definition node_id (n : node) : option value := n_props n !! "id".

(** At most one node of each kind with a given identifier. *)
Definition id_unique (σ : store) : Prop :=
  ∀ i j ni nj v,
    nodes σ !! i = Some ni → nodes σ !! j = Some nj →
    n_label ni = n_label nj → node_id ni = Some v → node_id nj = Some v →
    i = j.

(** The six constraints of [_set_uniqueness_constraints] are in place. *)
Definition all_constraints (σ : store) : Prop :=
  ∀ l : NodeKind, (l, "id") ∈ constraints σ.

(** At most one relationship of each kind between an ordered pair of nodes. *)
Definition rels_unique (σ : store) : Prop :=
  ∀ i j e e',
    rels σ !! i = Some e → rels σ !! j = Some e' →
    r_type e = r_type e' → r_src e = r_src e' → r_dst e = r_dst e' →
    i = j.

(** Every EMPLOYS relationship goes from a Physician to a Hospital that
    satisfy the rule. *)
Definition employs_sound (σ : store) : Prop :=
  ∀ e, e ∈ rels σ → r_type e = EMPLOYS →
    ∃ p h, nodes σ !! r_src e = Some p ∧ nodes σ !! r_dst e = Some h ∧
           n_label p = Physician ∧ n_label h = Hospital ∧
           employs_where p h = true.

(** The stores the pipeline can produce: from the empty store, any number
    of attempts, on any sources, each one possibly cut short by the store
    becoming unreachable. *)
Inductive reachable : store → Prop :=
  | reachable_empty : reachable empty_store
  | reachable_attempt σ src fault :
      reachable σ → reachable (final (run_attempt src fault σ)).

Record wf (σ : store) : Prop := Wf {
  wf_constraints : nodes σ = [] ∨ all_constraints σ;
  wf_unique : id_unique σ;
  wf_int : ∀ n, n ∈ nodes σ → ∃ z, node_id n = Some (VInt z);
  wf_rels : rels_unique σ;
  wf_employs : employs_sound σ
}.

(** The number of nodes of a kind, of relationships of a kind. *)
Definition count_nodes (l : NodeKind) (σ : store) : nat :=
  length (List.filter (λ n, bool_decide (n_label n = l)) (nodes σ)).

Definition count_rels (t : RelKind) (σ : store) : nat :=
  length (List.filter (λ e, bool_decide (r_type e = t)) (rels σ)).


End Specs.

(** ** Sequences of match-or-create steps *)

(** A load is a sequence of match-or-create steps on one list of entities
    (the nodes, or the relationships).  The notions below describe when a
    list is left unchanged by such a sequence. *)
Section Steps.
Context {A : Type}.

Record step := Step {
  s_match : A → bool;     (* the pattern of the MERGE *)
  s_update : A → A;       (* its SET clause *)
  s_new : A               (* the entity created when nothing matches *)
}.

Definition do_step (l : list A) (s : step) : list A :=
  upsert (s_match s) (s_update s) (s_new s) l.

Definition run_steps (steps : list step) (l : list A) : list A :=
  foldl do_step l steps.

(** What a step does to one existing entity. *)
Definition touch (s : step) (x : A) : A :=
  if s_match s x then s_update s x else x.

Definition touch_all (steps : list step) (x : A) : A :=
  foldl (λ y s, touch s y) x steps.

(** Updates do not change what an entity matches, a later update
    overrides an earlier one, and a created entity matches its pattern. *)
Record absorbing (steps : list step) : Prop := Absorbing {
  abs_match : ∀ s s' x, s ∈ steps → s' ∈ steps →
    s_match s' (s_update s x) = s_match s' x;
  abs_update : ∀ s s' x, s ∈ steps → s' ∈ steps →
    s_update s (s_update s' x) = s_update s x;
  abs_new : ∀ s, s ∈ steps → s_match s (s_new s) = true
}.

(** Every step finds a match, and no entity is changed by the steps. *)
Definition stable_list (steps : list step) (l : list A) : Prop :=
  (∀ s, s ∈ steps → existsb (s_match s) l = true) ∧
  (∀ x, x ∈ l → touch_all steps x = x).

(** [l] and [l'] have the same entities of class [c], at the same places. *)
Definition agree_on (c : A → bool) (l l' : list A) : Prop :=
  ∀ i x, c x = true → (l !! i = Some x ↔ l' !! i = Some x).

End Steps.

Arguments step : clear implicits.

(** ** A concrete instance, for the examples *)

(** Decimal numerals: [toInteger] reads an optional sign and digits,
    [toFloat] also a fractional part; the float is kept exactly, as a
    numerator and a power of ten. *)
Module Sample.

Definition digit_of (a : ascii) : option Z :=
  let n := Z.of_nat (nat_of_ascii a) in
  if (48 <=? n) && (n <=? 57) then Some (n - 48) else None.

Fixpoint digits (s : string) (acc : Z) : option Z :=
  match s with
  | EmptyString => Some acc
  | String a s' => d ← digit_of a; digits s' (10 * acc + d)
  end.

Definition unsigned (s : string) : option Z :=
  match s with
  | EmptyString => None
  | _ => digits s 0
  end.

Definition parse_integer (s : string) : option Z :=
  match s with
  | String "-"%char s' => Z.opp <$> unsigned s'
  | _ => unsigned s
  end.

(** Numerator and denominator (a power of ten) of [int.frac]. *)
Fixpoint fraction (s : string) (acc : Z) (scale : positive) : option (Z * positive) :=
  match s with
  | EmptyString => Some (acc, scale)
  | String a s' => d ← digit_of a; fraction s' (10 * acc + d) (10 * scale)%positive
  end.

Fixpoint decimal (s : string) (acc : Z) : option (Z * positive) :=
  match s with
  | EmptyString => Some (acc, 1%positive)
  | String "."%char s' => fraction s' acc 1
  | String a s' => d ← digit_of a; decimal s' (10 * acc + d)
  end.

Definition parse_float (s : string) : option (Z * positive) :=
  match s with
  | EmptyString => None
  | String "-"%char s' => (λ mp : Z * positive, (- mp.1, mp.2)) <$> decimal s' 0
  | _ => decimal s 0
  end.

#[global] Instance functions : CypherFunctions := {|
  Cfloat := Z * positive;
  toInteger := parse_integer;
  toFloat := parse_float
|}.

Definition row (kvs : list (string * string)) : gmap string string :=
  list_to_map kvs.

(** Two visit records, the second one with a payer that is in no payer
    source and a billing amount that is not a number, and a physician
    record whose identifier is not a number. *)
Definition visit_100 : gmap string string :=
  row [("visit_id", "100"); ("patient_id", "1"); ("hospital_id", "9");
       ("physician_id", "3"); ("payer_id", "1"); ("room_number", "101");
       ("discharge_date", "2021-05-01"); ("billing_amount", "1250.50")].

Definition visit_101 : gmap string string :=
  row [("visit_id", "101"); ("patient_id", "1"); ("hospital_id", "18");
       ("physician_id", "12"); ("payer_id", "2"); ("room_number", "102");
       ("discharge_date", "2021-06-01"); ("billing_amount", "N/A")].


(** Sources for the examples: hospitals 9, 18 and 27, physicians 3 and
    12, payer 1, patient 1, the two visits, one review. *)
Definition demo (c : Csv) : list (gmap string string) :=
  match c with
  | HOSPITALS_CSV_PATH =>
      [row [("hospital_id", "9"); ("hospital_name", "North"); ("hospital_state", "TX")];
       row [("hospital_id", "18"); ("hospital_name", "South"); ("hospital_state", "CO")];
       row [("hospital_id", "27"); ("hospital_name", "West"); ("hospital_state", "NC")]]
  | PAYERS_CSV_PATH =>
      [row [("payer_id", "1"); ("payer_name", "Medicaid")]]
  | PHYSICIANS_CSV_PATH =>
      [row [("physician_id", "3"); ("physician_name", "A"); ("physician_dob", "1970-01-01");
            ("physician_grad_year", "1995"); ("medical_school", "X")];
       row [("physician_id", "12"); ("physician_name", "B"); ("physician_dob", "1980-02-02");
            ("physician_grad_year", "2005"); ("medical_school", "Y")]]
  | PATIENTS_CSV_PATH =>
      [row [("patient_id", "1"); ("patient_name", "P"); ("patient_sex", "F");
            ("patient_dob", "1990-03-03"); ("patient_blood_type", "O+")]]
  | VISITS_CSV_PATH => [visit_100; visit_101]
  | REVIEWS_CSV_PATH =>
      [row [("review_id", "1"); ("visit_id", "100"); ("physician_name", "A");
            ("hospital_name", "North"); ("patient_name", "P"); ("review", "ok")]]
  end.

(** The same sources with another name for hospital 9, and with another
    room for visit 100. *)
Definition demo_renamed (c : Csv) : list (gmap string string) :=
  match c with
  | HOSPITALS_CSV_PATH =>
      [row [("hospital_id", "9"); ("hospital_name", "Northern"); ("hospital_state", "TX")]]
  | _ => []
  end.

Definition demo_moved (c : Csv) : list (gmap string string) :=
  match c with
  | VISITS_CSV_PATH =>
      [row [("visit_id", "100"); ("patient_id", "1"); ("hospital_id", "9");
            ("physician_id", "3"); ("payer_id", "1"); ("room_number", "202");
            ("discharge_date", "2021-05-01"); ("billing_amount", "1250.50")]]
  | _ => []
  end.


Definition demo_store : store := final (run_attempt demo None empty_store).

(** The store unreachable at the first two attempts only. *)
Definition down_twice (n : nat) : option nat :=
  if (n <? 2)%nat then Some 0%nat else None.

(** Reading a store: the integer or the text of a property value, the
    identifiers of the nodes at the two ends of each relationship of kind
    [t], and a property of the nodes of kind [l], in store order. *)
Definition int_of (v : option value) : option Z :=
  match v with Some (VInt z) => Some z | _ => None end.

Definition text_of (v : option value) : option string :=
  match v with Some (VStr s) => Some s | _ => None end.

Definition ends_of (t : RelKind) (σ : store) : list (option Z * option Z) :=
  (λ e : rel, (int_of (nodes σ !! r_src e ≫= node_id),
               int_of (nodes σ !! r_dst e ≫= node_id))) <$>
    List.filter (λ e, bool_decide (r_type e = t)) (rels σ).

Definition ints_of (l : NodeKind) (k : string) (σ : store) : list (option Z) :=
  (λ n : node, int_of (n_props n !! k)) <$>
    List.filter (λ n, bool_decide (n_label n = l)) (nodes σ).

Definition texts_of (l : NodeKind) (k : string) (σ : store) : list (option string) :=
  (λ n : node, text_of (n_props n !! k)) <$>
    List.filter (λ n, bool_decide (n_label n = l)) (nodes σ).

End Sample.

(** ** Properties *)

Section Properties.
Context `{CF : CypherFunctions}.

Implicit Types (σ : store) (r : gmap string string) (m : gmap string value).
Implicit Types (src : Csv → list (gmap string string)).

(** *** Lists: matching and match-or-create *)

Lemma elem_of_matches {A} (p : A → bool) (l : list A) i x :
  (i, x) ∈ matches p l ↔ l !! i = Some x ∧ p x = true.
Proof.
  unfold matches. rewrite list_elem_of_In, filter_In, <- list_elem_of_In.
  rewrite elem_of_lookup_imap. simpl. split.
  - intros [(j & y & Heq & Hj) Hp]. by simplify_eq.
  - intros [Hi Hp]. split; [by exists i, x | done].
Qed.

Lemma existsb_false_lookup {A} (p : A → bool) (l : list A) i x :
  existsb p l = false → l !! i = Some x → p x = false.
Proof.
  intros Hex Hi. destruct (p x) eqn:Hp; [|done].
  assert (existsb p l = true) as Ht; [|congruence].
  apply existsb_exists. exists x. split; [|done].
  apply list_elem_of_In. by eapply list_elem_of_lookup_2.
Qed.

Lemma existsb_true_lookup {A} (p : A → bool) (l : list A) :
  existsb p l = true ↔ ∃ i x, l !! i = Some x ∧ p x = true.
Proof.
  rewrite existsb_exists. split.
  - intros (x & Hin & Hp). apply list_elem_of_In, list_elem_of_lookup in Hin.
    destruct Hin as [i Hi]. eauto.
  - intros (i & x & Hi & Hp). exists x. split; [|done].
    apply list_elem_of_In. by eapply list_elem_of_lookup_2.
Qed.

(** An existing entity keeps its position; it is updated when it matches. *)
Lemma upsert_lookup_old {A} (p : A → bool) u x0 (l : list A) i x :
  l !! i = Some x → upsert p u x0 l !! i = Some (if p x then u x else x).
Proof.
  intros Hi. unfold upsert. destruct (existsb p l) eqn:Hex.
  - by rewrite list_lookup_fmap, Hi.
  - rewrite lookup_app_l by (by eapply lookup_lt_Some).
    by rewrite (existsb_false_lookup _ _ _ _ Hex Hi).
Qed.

(** Every entity of the result is an old one, or the one just created. *)
Lemma upsert_lookup_inv {A} (p : A → bool) u x0 (l : list A) i y :
  upsert p u x0 l !! i = Some y →
  (∃ x, l !! i = Some x ∧ y = if p x then u x else x) ∨
  (i = length l ∧ existsb p l = false ∧ y = u x0).
Proof.
  intros Hi. destruct (l !! i) as [x|] eqn:Hx.
  - left. exists x. split; [done|].
    rewrite (upsert_lookup_old p u x0 _ _ _ Hx) in Hi. congruence.
  - right. unfold upsert in Hi. destruct (existsb p l) eqn:Hex.
    + rewrite list_lookup_fmap, Hx in Hi. done.
    + apply lookup_app_Some in Hi as [Hi|[Hge Hi]]; [congruence|].
      apply list_lookup_singleton_Some in Hi as [Hi ->].
      apply lookup_ge_None in Hx. split_and!; [lia|done..].
Qed.

(** After a match-or-create there is a match, when [u] keeps matches. *)
Lemma upsert_exists {A} (p : A → bool) u x0 (l : list A) :
  (∀ x, p x = true → p (u x) = true) → p x0 = true →
  existsb p (upsert p u x0 l) = true.
Proof.
  intros Hu H0. unfold upsert. destruct (existsb p l) eqn:Hex.
  - apply existsb_true_lookup in Hex as (i & x & Hi & Hp).
    apply existsb_true_lookup. exists i, (u x). split; [|by apply Hu].
    by rewrite list_lookup_fmap, Hi; simpl; rewrite Hp.
  - rewrite existsb_app. simpl. rewrite (Hu _ H0). by rewrite orb_true_r.
Qed.

(** *** SET *)

(** [SET] leaves the properties it does not name alone. *)
Lemma apply_sets_other r sets m k :
  k ∉ sets.*1 → apply_sets r sets m !! k = m !! k.
Proof.
  unfold apply_sets. revert m. induction sets as [|[k' e] sets IH]; intros m Hk; [done|].
  simpl in *. apply not_elem_of_cons in Hk as [Hne Hk].
  rewrite IH by done. unfold set_prop. simpl.
  destruct (eval r e); [by rewrite lookup_insert_ne|by rewrite lookup_delete_ne].
Qed.

(** *** The attempt: statements are sent in pipeline order *)










(** *** The retry policy *)

Lemma attempt_counts src faults (w : world) :
  w_attempts (attempt src faults w).1 = S (w_attempts w) ∧
  w_slept (attempt src faults w).1 = w_slept w.
Proof. done. Qed.

(** With [backoff = 1] and [jitter = 0]: [k + 1] calls, [k < tries], and
    between two calls a sleep of exactly [delay]. *)
Lemma retry_fixed_delay (f : world → world * option error) tries delay (w : world) :
  (∀ w0, w_attempts (f w0).1 = S (w_attempts w0) ∧ w_slept (f w0).1 = w_slept w0) →
  (0 < tries)%nat →
  ∃ k, (k < tries)%nat ∧
       w_attempts (retry f tries delay 1 0 w).1 = (w_attempts w + S k)%nat ∧
       w_slept (retry f tries delay 1 0 w).1 = w_slept w ++ replicate k delay.
Proof.
  intros Hf. revert w. induction tries as [|n IH]; intros w Hpos; [lia|].
  simpl. destruct (Hf w) as [Ha Hs]. destruct (f w) as [w' [e|]]; simpl in *.
  - destruct n as [|n].
    + exists 0%nat. simpl. rewrite app_nil_r. split_and!; [lia|lia|done].
    + replace (delay * 1 + 0) with delay by lia.
      destruct (IH (World (w_store w') (w_attempts w') (w_slept w' ++ [delay])))
        as (k & Hk & Hka & Hks); [lia|].
      exists (S k). rewrite Hka, Hks. simpl. rewrite Ha, Hs, <- app_assoc.
      split_and!; [lia|lia|done].
  - exists 0%nat. simpl. rewrite app_nil_r. split_and!; [lia|lia|done].
Qed.

Lemma run_attempt_unreachable src σ :
  run_attempt src (Some 0%nat) σ =
  RunResult σ [SetConstraint Hospital] (Some ServiceUnavailable).
Proof. reflexivity. Qed.

(** C8. The decorated function makes at most 3 attempts, each one the whole
    pipeline from its first statement, with a sleep of exactly 10 between
    two attempts.  When the store is unreachable at the first two attempts,
    the third attempt is made on the untouched store and its outcome is the
    outcome of the call: success when the store is then reachable and the
    pipeline goes through, a single [ServiceUnavailable] when it is still
    unreachable; in both cases 3 attempts and the sleeps [10; 10]. *)
Theorem retry_policy src (faults : nat → option nat) σ :
  faults 0%nat = Some 0%nat → faults 1%nat = Some 0%nat →
  let third := run_attempt src (faults 2%nat) σ in
  let out := load_hospital_graph_from_csv src faults (World σ 0 []) in
  out = (World (final third) 3 [10; 10], raised third) ∧
  (faults 2%nat = None → raised (run_attempt src None σ) = None →
     out = (World (final (run_attempt src None σ)) 3 [10; 10], None)) ∧
  (faults 2%nat = Some 0%nat →
     out = (World σ 3 [10; 10], Some ServiceUnavailable)) ∧
  (∀ faults' (w : world),
     let w' := (load_hospital_graph_from_csv src faults' w).1 in
     ∃ k, (k < 3)%nat ∧ w_attempts w' = (w_attempts w + S k)%nat ∧
          w_slept w' = w_slept w ++ replicate k 10).
Proof.
  intros H0 H1 third out.
  assert (out = (World (final third) 3 [10; 10], raised third)) as Hout.
  { unfold out, load_hospital_graph_from_csv, retry, attempt. simpl.
    rewrite H0, run_attempt_unreachable. simpl.
    rewrite H1, run_attempt_unreachable. simpl.
    fold third. by destruct (raised third). }
  split_and!.
  - done.
  - intros H2 Hok. rewrite Hout. unfold third. by rewrite H2, Hok.
  - intros H2. rewrite Hout. unfold third. by rewrite H2, run_attempt_unreachable.
  - intros faults' w. apply retry_fixed_delay; [|lia].
    intros w0. apply attempt_counts.
Qed.

(** *** Node loads: a null identifier *)





(** *** Relationship loads: unresolved endpoints *)

Lemma merge_rel_nodes t r sets σ ab : nodes (merge_rel t r sets σ ab) = nodes σ.
Proof. done. Qed.

Lemma foldl_merge_rel_nodes t r sets σ abs :
  nodes (foldl (merge_rel t r sets) σ abs) = nodes σ.
Proof. revert σ. induction abs as [|ab abs IH]; intros σ; [done|]. simpl. by rewrite IH. Qed.

Lemma merge_rel_row_nodes q σ r : nodes (merge_rel_row q σ r) = nodes σ.
Proof. apply foldl_merge_rel_nodes. Qed.

Lemma load_rels_nodes q rows σ : nodes (load_rels q rows σ) = nodes σ.
Proof.
  unfold load_rels. revert σ. induction rows as [|r rows IH]; intros σ; [done|].
  simpl. by rewrite IH, merge_rel_row_nodes.
Qed.

(** Endpoint resolution only looks at the nodes. *)
Lemma resolve_nodes ep r σ σ' : nodes σ = nodes σ' → resolve ep r σ = resolve ep r σ'.
Proof. intros H. unfold resolve, match_prop. by rewrite H. Qed.

Lemma bound_pairs_nodes q r σ σ' :
  nodes σ = nodes σ' → bound_pairs q r σ = bound_pairs q r σ'.
Proof.
  intros H. unfold bound_pairs.
  by rewrite (resolve_nodes _ r σ σ' H), (resolve_nodes _ r σ σ' H).
Qed.

Lemma unresolved_no_pairs q r σ :
  resolve (rq_first q) r σ = [] ∨ resolve (rq_second q) r σ = [] →
  bound_pairs q r σ = [].
Proof.
  intros H. unfold bound_pairs.
  assert (list_prod (resolve (rq_first q) r σ).*1 (resolve (rq_second q) r σ).*1 = [])
    as ->; [|done].
  destruct H as [-> | ->]; [done|].
  simpl. induction ((resolve (rq_first q) r σ).*1); [done|]. by simpl.
Qed.

(** C5. A relationship record one of whose endpoints resolves to no node
    creates no relationship and changes nothing: the row leaves the store
    as it is, the load of the whole source gives the same store as the load
    without that record (the other records are processed as before), and
    the statement returns a store, never an error. *)
Theorem referential_tolerance src (q : rel_query) rows1 r rows2 σ :
  resolve (rq_first q) r σ = [] ∨ resolve (rq_second q) r σ = [] →
  merge_rel_row q σ r = σ ∧
  load_rels q (rows1 ++ r :: rows2) σ = load_rels q (rows1 ++ rows2) σ ∧
  ∃ σ', exec_stmt src (LoadRels q) σ = inl σ'.
Proof.
  intros Hun. split_and!.
  - unfold merge_rel_row. by rewrite (unresolved_no_pairs _ _ _ Hun).
  - unfold load_rels. rewrite !foldl_app. simpl. f_equal.
    fold (load_rels q rows1 σ). unfold merge_rel_row.
    rewrite (bound_pairs_nodes q r _ σ) by apply load_rels_nodes.
    by rewrite (unresolved_no_pairs _ _ _ Hun).
  - simpl. eauto.
Qed.

(** *** Well-formed stores *)

(** The statements never change the label or the identifier of a node. *)
Definition well_keyed (q : node_query) : Prop :=
  ∃ c rest, nq_pattern q = ("id", ToInteger c) :: rest ∧ "id" ∉ (nq_set q).*1.

Lemma node_queries_well_keyed q : q ∈ node_queries → well_keyed q.
Proof.
  unfold node_queries. rewrite !elem_of_cons, elem_of_nil.
  intros [->|[->|[->|[->|[->|[->|[]]]]]]]; (eexists _, _; split; [reflexivity|]);
    simpl; rewrite ?not_elem_of_cons; split_and?; try done; apply not_elem_of_nil.
Qed.

Lemma set_node_id r sets (n : node) :
  "id" ∉ sets.*1 → node_id (set_node r sets n) = node_id n.
Proof. intros H. unfold node_id. simpl. by apply apply_sets_other. Qed.

Lemma employs_where_ids (p h p' h' : node) :
  node_id p' = node_id p → node_id h' = node_id h →
  employs_where p' h' = employs_where p h.
Proof. unfold employs_where, node_id. by intros -> ->. Qed.

Lemma eval_pattern_head r k e rest m :
  eval_pattern r ((k, e) :: rest) = Some m → m !! k = eval r e ∧ is_Some (eval r e).
Proof.
  simpl. destruct (eval r e) as [v|]; [|done].
  destruct (eval_pattern r rest) as [m0|]; [|done].
  intros [= <-]. by rewrite lookup_insert_eq.
Qed.

Lemma violates_false_lookup ns l m k v i (n : node) :
  violates ns l m (l, k) = false → m !! k = Some v →
  ns !! i = Some n → n_label n = l → n_props n !! k = Some v → False.
Proof.
  unfold violates. simpl. rewrite bool_decide_eq_true_2 by done. simpl.
  intros Hv Hm Hi Hl Hk. rewrite Hm in Hv.
  pose proof (existsb_false_lookup _ _ _ _ Hv Hi) as H. simpl in H.
  rewrite !bool_decide_eq_true_2 in H by done. done.
Qed.

(** What one row of a node load does to the nodes. *)
Lemma merge_node_row_nodes q r σ σ' :
  well_keyed q → all_constraints σ →
  merge_node_row (nq_label q) (nq_pattern q) (nq_set q) r σ = inl σ' →
  rels σ' = rels σ ∧ constraints σ' = constraints σ ∧
  (∀ i n, nodes σ !! i = Some n →
     ∃ n', nodes σ' !! i = Some n' ∧ n_label n' = n_label n ∧ node_id n' = node_id n) ∧
  (∀ i n', nodes σ' !! i = Some n' →
     (∃ n, nodes σ !! i = Some n ∧ n_label n' = n_label n ∧ node_id n' = node_id n) ∨
     (i = length (nodes σ) ∧ n_label n' = nq_label q ∧
      (∃ z, node_id n' = Some (VInt z)) ∧
      ∀ j n, nodes σ !! j = Some n → n_label n = nq_label q → node_id n ≠ node_id n')).
Proof.
  intros (c & rest & Hpat & Hset) Hall. unfold merge_node_row.
  destruct (eval_pattern r (nq_pattern q)) as [m|] eqn:Hm; [|done].
  rewrite Hpat in Hm. apply eval_pattern_head in Hm as [Hid [v Hv]].
  rewrite Hv in Hid. simpl in Hv.
  destruct (r !! c ≫= toInteger) as [z|] eqn:Hz; [|done]. simpl in Hv. simplify_eq.
  destruct (negb _ && _) eqn:Hchk; [done|]. intros [= <-]. simpl.
  split_and!; [done|done|..].
  - intros i n Hi. eexists. split; [by apply upsert_lookup_old|].
    destruct (node_matches _ _ n); [|done].
    split; [done|by apply set_node_id].
  - intros i n' Hi. apply upsert_lookup_inv in Hi as [(n & Hn & ->)|(-> & Hex & ->)].
    + left. exists n. split; [done|].
      destruct (node_matches _ _ n); [|done].
      split; [done|by apply set_node_id].
    + right. rewrite Hex in Hchk. simpl in Hchk.
      rewrite set_node_id by done. unfold node_id at 1 2. simpl. rewrite Hid.
      split_and!; [done|done|by eexists|].
      intros j n Hj Hl Hn.
      assert (violates (nodes σ) (nq_label q) m (nq_label q, "id") = false) as Hviol.
      { destruct (violates _ _ _ (nq_label q, "id")) eqn:Hv; [|done].
        assert (existsb (violates (nodes σ) (nq_label q) m) (constraints σ) = true)
          as Ht; [|congruence].
        apply existsb_exists. exists (nq_label q, "id"). split; [|done].
        apply list_elem_of_In, Hall. }
      unfold node_id in Hn. simpl in Hn. rewrite Hid in Hn.
      eapply violates_false_lookup; eauto.
Qed.

Lemma merge_node_row_wf q r σ σ' :
  well_keyed q → all_constraints σ → wf σ →
  merge_node_row (nq_label q) (nq_pattern q) (nq_set q) r σ = inl σ' →
  wf σ' ∧ all_constraints σ'.
Proof.
  intros Hq Hall Hwf Hrow.
  destruct (merge_node_row_nodes q r σ σ' Hq Hall Hrow) as (Hr & Hc & Hold & Hnew).
  assert (all_constraints σ') as Hall' by (unfold all_constraints; by rewrite Hc).
  split; [|done]. split.
  - by right.
  - intros i j ni nj v Hi Hj Hl Hvi Hvj.
    destruct (Hnew i ni Hi) as [(n1 & Hn1 & Hl1 & Hid1)|(-> & Hl1 & _ & Hfresh1)];
    destruct (Hnew j nj Hj) as [(n2 & Hn2 & Hl2 & Hid2)|(-> & Hl2 & _ & Hfresh2)].
    + apply (wf_unique σ Hwf i j n1 n2 v); congruence.
    + exfalso. apply (Hfresh2 i n1 Hn1); congruence.
    + exfalso. apply (Hfresh1 j n2 Hn2); congruence.
    + done.
  - intros n' Hin. apply list_elem_of_lookup in Hin as [i Hi].
    destruct (Hnew i n' Hi) as [(n & Hn & _ & Hid)|(_ & _ & Hz & _)]; [|done].
    rewrite Hid. apply (wf_int σ Hwf). by eapply list_elem_of_lookup_2.
  - unfold rels_unique. rewrite Hr. apply (wf_rels σ Hwf).
  - intros e He Ht. rewrite Hr in He.
    destruct (wf_employs σ Hwf e He Ht) as (p & h & Hp & Hh & Hlp & Hlh & Hw).
    destruct (Hold _ _ Hp) as (p' & Hp' & Hlp' & Hidp).
    destruct (Hold _ _ Hh) as (h' & Hh' & Hlh' & Hidh).
    exists p', h'. split_and!; [done|done|congruence|congruence|].
    by rewrite (employs_where_ids p h p' h').
Qed.

Lemma load_nodes_wf q rows σ σ' :
  well_keyed q → all_constraints σ → wf σ →
  load_nodes q rows σ = inl σ' → wf σ' ∧ all_constraints σ'.
Proof.
  intros Hq. revert σ. induction rows as [|r rows IH]; intros σ Hall Hwf; simpl.
  - by intros [= <-].
  - destruct (merge_node_row _ _ _ r σ) as [σ1|e] eqn:Hrow; [|done].
    destruct (merge_node_row_wf q r σ σ1 Hq Hall Hwf Hrow). by apply IH.
Qed.

Lemma rel_upd_fields (c : bool) r sets (x : rel) :
  r_type (if c then set_rel r sets x else x) = r_type x ∧
  r_src (if c then set_rel r sets x else x) = r_src x ∧
  r_dst (if c then set_rel r sets x else x) = r_dst x.
Proof. by destruct c. Qed.

(** What a relationship merge does to the relationships. *)
Lemma merge_rel_wf t r sets σ a b :
  wf σ →
  (t = EMPLOYS → ∃ p h, nodes σ !! a = Some p ∧ nodes σ !! b = Some h ∧
                        n_label p = Physician ∧ n_label h = Hospital ∧
                        employs_where p h = true) →
  wf (merge_rel t r sets σ (a, b)).
Proof.
  intros Hwf Hemp.
  change (merge_rel t r sets σ (a, b)) with
    (Store (nodes σ)
       (upsert (rel_matches t a b) (set_rel r sets) (Rel t a b ∅) (rels σ))
       (constraints σ)).
  split; cbn.
  - apply (wf_constraints σ Hwf).
  - apply (wf_unique σ Hwf).
  - apply (wf_int σ Hwf).
  - intros i j e e' Hi Hj Ht Hs Hd.
    apply upsert_lookup_inv in Hi as [(x & Hx & ->)|(-> & Hex & ->)];
    apply upsert_lookup_inv in Hj as [(y & Hy & ->)|(-> & Hey & ->)].
    + destruct (rel_upd_fields (rel_matches t a b x) r sets x) as (Hx1 & Hx2 & Hx3).
      destruct (rel_upd_fields (rel_matches t a b y) r sets y) as (Hy1 & Hy2 & Hy3).
      apply (wf_rels σ Hwf i j x y); [done|done|congruence..].
    + exfalso. pose proof (existsb_false_lookup _ _ _ _ Hey Hx) as Hno.
      assert (rel_matches t a b x = true); [|congruence].
      rewrite Hno in Ht, Hs, Hd. simpl in *. unfold rel_matches.
      by rewrite !andb_true_iff, !bool_decide_eq_true.
    + exfalso. pose proof (existsb_false_lookup _ _ _ _ Hex Hy) as Hno.
      assert (rel_matches t a b y = true); [|congruence].
      rewrite Hno in Ht, Hs, Hd. simpl in *. unfold rel_matches.
      by rewrite !andb_true_iff, !bool_decide_eq_true.
    + done.
  - intros e He Ht. apply list_elem_of_lookup in He as [i Hi].
    apply upsert_lookup_inv in Hi as [(x & Hx & ->)|(-> & Hex & ->)].
    + destruct (rel_upd_fields (rel_matches t a b x) r sets x) as (Hx1 & Hx2 & Hx3).
      rewrite Hx1 in Ht. rewrite Hx2, Hx3.
      apply (wf_employs σ Hwf x); [by eapply list_elem_of_lookup_2|done].
    + simpl in *. by apply Hemp.
Qed.

Lemma foldl_merge_rel_wf t r sets σ abs :
  wf σ →
  (t = EMPLOYS → ∀ a b, (a, b) ∈ abs →
     ∃ p h, nodes σ !! a = Some p ∧ nodes σ !! b = Some h ∧
            n_label p = Physician ∧ n_label h = Hospital ∧
            employs_where p h = true) →
  wf (foldl (merge_rel t r sets) σ abs).
Proof.
  revert σ. induction abs as [|[a b] abs IH]; intros σ Hwf Hemp; [done|].
  simpl. apply IH.
  - apply merge_rel_wf; [done|]. intros Ht. apply (Hemp Ht). by left.
  - intros Ht a' b' Hin. rewrite merge_rel_nodes. apply (Hemp Ht). by right.
Qed.

Lemma load_rels_wf q rows σ : rq_type q ≠ EMPLOYS → wf σ → wf (load_rels q rows σ).
Proof.
  intros Hq. unfold load_rels. revert σ.
  induction rows as [|r rows IH]; intros σ Hwf; [done|].
  simpl. apply IH. unfold merge_rel_row. by apply foldl_merge_rel_wf.
Qed.

Lemma rel_queries_sourced q : q ∈ rel_queries → rq_type q ≠ EMPLOYS.
Proof.
  unfold rel_queries. rewrite !elem_of_cons, elem_of_nil.
  by intros [->|[->|[->|[->|[->|[]]]]]].
Qed.

Lemma node_matches_label l (n : node) : node_matches l ∅ n = true ↔ n_label n = l.
Proof.
  unfold node_matches. rewrite andb_true_iff, !bool_decide_eq_true.
  split; [by intros [? _]|]. intros ?. split; [done|]. apply map_Forall_empty.
Qed.

(** The pairs the inference binds: every Physician with every Hospital
    that satisfy the rule, and only those. *)
Lemma elem_of_employs_pairs σ a b :
  (a, b) ∈ employs_pairs σ ↔
  ∃ p h, nodes σ !! a = Some p ∧ nodes σ !! b = Some h ∧
         n_label p = Physician ∧ n_label h = Hospital ∧
         employs_where p h = true.
Proof.
  unfold employs_pairs. rewrite list_elem_of_bind. split.
  - intros ([i p] & Hin & Hp). apply list_elem_of_bind in Hin as ([j h] & Hin & Hh).
    apply elem_of_matches in Hp as [Hp Hlp]. apply elem_of_matches in Hh as [Hh Hlh].
    simpl in Hin. destruct (employs_where p h) eqn:Hw; [|by apply elem_of_nil in Hin].
    apply list_elem_of_singleton in Hin. simplify_eq.
    exists p, h. by rewrite <- !node_matches_label.
  - intros (p & h & Hp & Hh & Hlp & Hlh & Hw). exists (a, p). split.
    + apply list_elem_of_bind. exists (b, h). split.
      * simpl. rewrite Hw. by apply list_elem_of_singleton.
      * apply elem_of_matches. by rewrite node_matches_label.
    + apply elem_of_matches. by rewrite node_matches_label.
Qed.

Lemma infer_employs_wf σ : wf σ → wf (infer_employs σ).
Proof.
  intros Hwf. apply foldl_merge_rel_wf; [done|].
  intros _ a b. by rewrite elem_of_employs_pairs.
Qed.

Lemma infer_employs_nodes σ : nodes (infer_employs σ) = nodes σ.
Proof. apply foldl_merge_rel_nodes. Qed.

Lemma create_constraint_inv l k σ σ' :
  create_constraint l k σ = inl σ' →
  nodes σ' = nodes σ ∧ rels σ' = rels σ ∧ (l, k) ∈ constraints σ' ∧
  ∀ c, c ∈ constraints σ → c ∈ constraints σ'.
Proof.
  unfold create_constraint. case_bool_decide as Hin.
  - intros [= <-]. by split_and!.
  - destruct (unique_on l k (nodes σ)); [|done]. intros [= <-]. simpl.
    split_and!; [done|done|..].
    + apply elem_of_app. right. by apply list_elem_of_singleton.
    + intros c Hc. apply elem_of_app. by left.
Qed.

Lemma wf_same_graph σ σ' :
  nodes σ' = nodes σ → rels σ' = rels σ →
  (∀ c, c ∈ constraints σ → c ∈ constraints σ') → wf σ → wf σ'.
Proof.
  intros Hn Hr Hc Hwf. split.
  - destruct (wf_constraints σ Hwf) as [Hnil|Hall]; [left; congruence|].
    right. intros l. apply Hc, Hall.
  - unfold id_unique. rewrite Hn. apply (wf_unique σ Hwf).
  - rewrite Hn. apply (wf_int σ Hwf).
  - unfold rels_unique. rewrite Hr. apply (wf_rels σ Hwf).
  - unfold employs_sound. rewrite Hn, Hr. apply (wf_employs σ Hwf).
Qed.

Lemma wf_empty : wf empty_store.
Proof.
  split; unfold id_unique, rels_unique, employs_sound; simpl.
  - by left.
  - intros i j ni nj v Hi. by rewrite lookup_nil in Hi.
  - intros n Hn. by apply elem_of_nil in Hn.
  - intros i j e e' Hi. by rewrite lookup_nil in Hi.
  - intros e He. by apply elem_of_nil in He.
Qed.

(** *** Invariants of an attempt *)

Lemma run_stmts_inv (P : store → Prop) src fault qs σ tr :
  (∀ s σ0 σ1, s ∈ qs → P σ0 → exec_stmt src s σ0 = inl σ1 → P σ1) →
  P σ → P (final (run_stmts src fault qs σ tr)).
Proof.
  revert fault σ tr. induction qs as [|q qs IH]; intros fault σ tr Hstep HP; [done|].
  assert (∀ f σ1, exec_stmt src q σ = inl σ1 →
            P (final (run_stmts src f qs σ1 (tr ++ [q])))) as Hnext.
  { intros f σ1 Hq. apply IH.
    - intros s σ0 σ2 Hs. apply Hstep. by right.
    - apply (Hstep q σ σ1); [by left|done..]. }
  simpl. destruct fault as [[|n]|]; simpl; [done|..];
    (destruct (exec_stmt src q σ) as [σ1|e] eqn:Hq; [by apply Hnext|done]).
Qed.

(** A run of [a ++ b] is a run of [a] followed, when it went through, by a
    run of [b]. *)
Lemma run_stmts_app src fault a b σ tr :
  ∃ fault',
    run_stmts src fault (a ++ b) σ tr =
    match raised (run_stmts src fault a σ tr) with
    | None => run_stmts src fault' b (final (run_stmts src fault a σ tr))
                (sent (run_stmts src fault a σ tr))
    | Some _ => run_stmts src fault a σ tr
    end.
Proof.
  revert fault σ tr. induction a as [|q a IH]; intros fault σ tr; simpl.
  - by exists fault.
  - destruct fault as [[|n]|]; simpl; [by exists None|..];
      (destruct (exec_stmt src q σ) as [σ1|e]; [apply IH|by exists None]).
Qed.

Lemma constraints_phase src fault ls σ tr :
  raised (run_stmts src fault (SetConstraint <$> ls) σ tr) = None →
  ∀ l, l ∈ ls →
    (l, "id") ∈ constraints (final (run_stmts src fault (SetConstraint <$> ls) σ tr)).
Proof.
  revert fault σ tr. induction ls as [|l0 ls IH]; intros fault σ tr Hok l Hl;
    [by apply elem_of_nil in Hl|].
  assert (∀ f σ1, _set_uniqueness_constraints l0 σ = inl σ1 →
            raised (run_stmts src f (SetConstraint <$> ls) σ1 (tr ++ [SetConstraint l0])) = None →
            (l, "id") ∈ constraints
              (final (run_stmts src f (SetConstraint <$> ls) σ1 (tr ++ [SetConstraint l0]))))
    as Hnext.
  { intros f σ1 Hq Hok1. apply elem_of_cons in Hl as [->|Hl]; [|by apply IH].
    apply create_constraint_inv in Hq as (_ & _ & Hin & _).
    apply (run_stmts_inv (λ σ', (l0, "id") ∈ constraints σ')); [|done].
    intros s σ0 σ2 Hs Hin0 Hexec. apply list_elem_of_fmap in Hs as (l' & -> & _).
    apply create_constraint_inv in Hexec as (_ & _ & _ & Hmono). by apply Hmono. }
  simpl in *. destruct fault as [[|n]|]; simpl in *; [done|..];
    (destruct (_set_uniqueness_constraints l0 σ) as [σ1|e] eqn:Hq; [by apply Hnext|done]).
Qed.

Lemma exec_constraint_wf src l σ σ' :
  wf σ → exec_stmt src (SetConstraint l) σ = inl σ' → wf σ'.
Proof.
  intros Hwf Hexec. apply create_constraint_inv in Hexec as (Hn & Hr & _ & Hmono).
  by apply (wf_same_graph σ).
Qed.

Lemma foldl_merge_rel_constraints t r sets σ abs :
  constraints (foldl (merge_rel t r sets) σ abs) = constraints σ.
Proof. revert σ. induction abs as [|ab abs IH]; intros σ; [done|]. simpl. by rewrite IH. Qed.

Lemma load_rels_constraints q rows σ : constraints (load_rels q rows σ) = constraints σ.
Proof.
  unfold load_rels. revert σ. induction rows as [|r rows IH]; intros σ; [done|].
  simpl. rewrite IH. apply foldl_merge_rel_constraints.
Qed.

Lemma infer_employs_constraints σ : constraints (infer_employs σ) = constraints σ.
Proof. apply foldl_merge_rel_constraints. Qed.

(** After the constraints, every statement keeps the store well formed. *)
Lemma exec_loaded_wf src s σ σ' :
  s ∈ (LoadNodes <$> node_queries) ++ (LoadRels <$> rel_queries) ++ [InferEmploys] →
  wf σ ∧ all_constraints σ → exec_stmt src s σ = inl σ' →
  wf σ' ∧ all_constraints σ'.
Proof.
  rewrite !elem_of_app. intros [Hs|[Hs|Hs]] [Hwf Hall] Hexec.
  - apply list_elem_of_fmap in Hs as (q & -> & Hq). simpl in Hexec.
    apply (load_nodes_wf q (src (nq_csv q)) σ); [by apply node_queries_well_keyed|done..].
  - apply list_elem_of_fmap in Hs as (q & -> & Hq). simpl in Hexec. simplify_eq.
    split; [by apply load_rels_wf; [apply rel_queries_sourced|]|].
    unfold all_constraints. by rewrite load_rels_constraints.
  - apply list_elem_of_singleton in Hs as ->. simpl in Hexec. simplify_eq.
    split; [by apply infer_employs_wf|].
    unfold all_constraints. by rewrite infer_employs_constraints.
Qed.

Lemma NODES_all (l : NodeKind) : l ∈ NODES.
Proof. unfold NODES. rewrite !elem_of_cons. destruct l; tauto. Qed.

Lemma run_attempt_wf src fault σ : wf σ → wf (final (run_attempt src fault σ)).
Proof.
  intros Hwf. unfold run_attempt, pipeline.
  destruct (run_stmts_app src fault (SetConstraint <$> NODES)
              ((LoadNodes <$> node_queries) ++ (LoadRels <$> rel_queries) ++ [InferEmploys])
              σ []) as [fault' ->].
  assert (wf (final (run_stmts src fault (SetConstraint <$> NODES) σ []))) as Hwf1.
  { apply (run_stmts_inv wf); [|done].
    intros s σ0 σ1 Hs Hwf0 Hexec. apply list_elem_of_fmap in Hs as (l & -> & _).
    by eapply exec_constraint_wf. }
  destruct (raised (run_stmts src fault (SetConstraint <$> NODES) σ [])) eqn:Hr; [done|].
  pose proof (constraints_phase src fault NODES σ [] Hr) as Hall.
  apply (run_stmts_inv (λ σ0, wf σ0 ∧ all_constraints σ0)).
  - intros s σ0 σ1 Hs. by apply exec_loaded_wf.
  - split; [done|]. intros l. apply Hall, NODES_all.
Qed.

Lemma reachable_wf σ : reachable σ → wf σ.
Proof. induction 1; [apply wf_empty|by apply run_attempt_wf]. Qed.

(** The retried call only makes attempts: it keeps the store reachable. *)
Lemma retry_reachable src faults tries delay backoff jitter (w : world) :
  reachable (w_store w) →
  reachable (w_store (retry (attempt src faults) tries delay backoff jitter w).1).
Proof.
  revert delay w. induction tries as [|n IH]; intros delay w Hw; [done|].
  simpl. destruct (raised _) eqn:Hr.
  - destruct n as [|n]; [by constructor|]. apply IH. simpl. by constructor.
  - simpl. by constructor.
Qed.

(** C3. In every store the pipeline can produce (from the empty store, any
    number of attempts and retried calls, completed or cut short, on any
    sources) there is at most one node of a given kind with a given
    identifier. *)
Theorem identifier_uniqueness σ :
  reachable σ →
  (∀ (K : NodeKind) (v : value) i j ni nj,
     nodes σ !! i = Some ni → nodes σ !! j = Some nj →
     n_label ni = K → n_label nj = K →
     node_id ni = Some v → node_id nj = Some v → i = j) ∧
  (∀ src faults (w : world), w_store w = σ →
     id_unique (w_store (load_hospital_graph_from_csv src faults w).1)).
Proof.
  intros Hreach. split.
  - intros K v i j ni nj Hi Hj Hli Hlj Hvi Hvj.
    apply (wf_unique σ (reachable_wf σ Hreach) i j ni nj v); congruence.
  - intros src faults w <-. apply wf_unique, reachable_wf.
    by apply retry_reachable.
Qed.

(** *** Sequences of match-or-create steps *)

Section StepsFacts.
Context {A : Type}.
Implicit Types (s : step A) (steps done rest : list (step A)) (l : list A).

Lemma touch_all_snoc done s (x : A) :
  touch_all (done ++ [s]) x = touch s (touch_all done x).
Proof. unfold touch_all. by rewrite foldl_app. Qed.

Lemma touch_match steps s s' (x : A) :
  absorbing steps → s ∈ steps → s' ∈ steps →
  s_match s' (touch s x) = s_match s' x.
Proof.
  intros Habs Hs Hs'. unfold touch. destruct (s_match s x); [|done].
  by apply (abs_match steps Habs).
Qed.

Lemma touch_all_match steps done s' (x : A) :
  absorbing steps → (∀ s, s ∈ done → s ∈ steps) → s' ∈ steps →
  s_match s' (touch_all done x) = s_match s' x.
Proof.
  intros Habs Hsub Hs'. induction done as [|s done IH] using rev_ind; [done|].
  rewrite touch_all_snoc, (touch_match steps) by (try done; apply Hsub, elem_of_app; right; by left).
  apply IH. intros s0 H0. apply Hsub, elem_of_app. by left.
Qed.

(** An update hides whatever the earlier steps did. *)
Lemma update_touch_all steps done s (x : A) :
  absorbing steps → (∀ s0, s0 ∈ done → s0 ∈ steps) → s ∈ steps →
  s_update s (touch_all done x) = s_update s x.
Proof.
  intros Habs Hsub Hs. induction done as [|s1 done IH] using rev_ind; [done|].
  rewrite touch_all_snoc. unfold touch at 1.
  assert (s1 ∈ steps) as H1 by (apply Hsub, elem_of_app; right; by left).
  assert (∀ s0, s0 ∈ done → s0 ∈ steps) as Hsub'
    by (intros s0 H0; apply Hsub, elem_of_app; by left).
  destruct (s_match s1 _); [|by apply IH].
  rewrite (abs_update steps Habs) by done. by apply IH.
Qed.

Lemma do_step_stable steps done s l :
  absorbing steps → (∀ s0, s0 ∈ done → s0 ∈ steps) → s ∈ steps →
  stable_list done l → stable_list (done ++ [s]) (do_step l s).
Proof.
  intros Habs Hsub Hs [Hex Hfix]. split.
  - intros s0 H0. apply elem_of_app in H0 as [H0|H0].
    + destruct (proj1 (existsb_true_lookup _ _) (Hex s0 H0)) as (i & x & Hi & Hp).
      apply existsb_true_lookup. exists i, (touch s x).
      split; [by apply upsert_lookup_old|].
      rewrite (touch_match steps) by auto. done.
    + apply list_elem_of_singleton in H0 as ->.
      apply upsert_exists; [|by apply (abs_new steps Habs)].
      intros x Hx. by rewrite (abs_match steps Habs).
  - intros y Hy. apply list_elem_of_lookup in Hy as [i Hi]. rewrite touch_all_snoc.
    apply upsert_lookup_inv in Hi as [(x & Hx & ->)|(-> & Hno & ->)].
    + fold (touch s x). unfold touch at 2. destruct (s_match s x) eqn:Hm.
      * unfold touch.
        rewrite (touch_all_match steps), (abs_match steps Habs), Hm by done.
        by rewrite (update_touch_all steps), (abs_update steps Habs).
      * rewrite Hfix by (by eapply list_elem_of_lookup_2). unfold touch. by rewrite Hm.
    + unfold touch.
      rewrite (touch_all_match steps), (abs_match steps Habs),
        (abs_new steps Habs) by done.
      by rewrite (update_touch_all steps), (abs_update steps Habs).
Qed.

Lemma run_steps_stable_from steps done rest l :
  absorbing steps → (∀ s0, s0 ∈ done ++ rest → s0 ∈ steps) →
  stable_list done l → stable_list (done ++ rest) (run_steps rest l).
Proof.
  intros Habs. revert done l. induction rest as [|s rest IH]; intros done l Hsub Hst.
  - by rewrite app_nil_r.
  - simpl. replace (done ++ s :: rest) with ((done ++ [s]) ++ rest)
      by (by rewrite <- app_assoc).
    apply IH; [by rewrite <- app_assoc|].
    apply (do_step_stable steps); [done| |apply Hsub; set_solver|done].
    intros s0 H0. apply Hsub. set_solver.
Qed.

(** After the steps, running them again finds everything in place. *)
Lemma run_steps_stable steps l :
  absorbing steps → stable_list steps (run_steps steps l).
Proof.
  intros Habs. apply (run_steps_stable_from steps [] steps l Habs); [done|].
  split; [intros s Hs; by apply elem_of_nil in Hs|done].
Qed.

Lemma run_steps_closed steps rest l :
  absorbing steps → (∀ s, s ∈ rest → s ∈ steps) →
  (∀ s, s ∈ rest → existsb (s_match s) l = true) →
  run_steps rest l = touch_all rest <$> l.
Proof.
  intros Habs. revert l. induction rest as [|s rest IH]; intros l Hsub Hex.
  - simpl. by rewrite list_fmap_id.
  - simpl. unfold do_step at 1, upsert. rewrite Hex by (by left).
    rewrite IH.
    + rewrite <- list_fmap_compose. by apply list_fmap_ext.
    + intros s0 H0. apply Hsub. by right.
    + intros s0 H0.
      destruct (proj1 (existsb_true_lookup _ _) (Hex s0 (list_elem_of_further _ _ _ H0)))
        as (i & x & Hi & Hp).
      apply existsb_true_lookup. exists i, (touch s x).
      split; [by rewrite list_lookup_fmap, Hi|].
      rewrite (touch_match steps); [done|done|apply Hsub; by left|apply Hsub; by right].
Qed.

(** A stable list is a fixed point of the steps. *)
Lemma stable_run_steps steps l :
  absorbing steps → stable_list steps l → run_steps steps l = l.
Proof.
  intros Habs [Hex Hfix]. rewrite (run_steps_closed steps) by done.
  rewrite <- (list_fmap_id l) at 2. apply list_fmap_ext.
  intros i x Hi. apply Hfix. by eapply list_elem_of_lookup_2.
Qed.

(** Stability only depends on the entities the steps can match. *)
Lemma stable_list_agree (c : A → bool) steps l l' :
  (∀ s x, s ∈ steps → s_match s x = true → c x = true) →
  agree_on c l l' → stable_list steps l → stable_list steps l'.
Proof.
  intros Hc Hag [Hex Hfix]. split.
  - intros s Hs. destruct (proj1 (existsb_true_lookup _ _) (Hex s Hs)) as (i & x & Hi & Hp).
    apply existsb_true_lookup. exists i, x. split; [|done].
    apply (Hag i x); [by eapply Hc|done].
  - intros x Hx. destruct (c x) eqn:Hcx.
    + apply Hfix. apply list_elem_of_lookup in Hx as [i Hi].
      apply (Hag i x Hcx) in Hi. by eapply list_elem_of_lookup_2.
    + clear Hx. assert (∀ s, s ∈ steps → touch s x = x) as Hno.
      { intros s Hs. unfold touch. destruct (s_match s x) eqn:Hm; [|done].
        rewrite (Hc s x Hs Hm) in Hcx. done. }
      clear Hex Hfix Hc. unfold touch_all.
      induction steps as [|s steps IH]; [done|]. simpl.
      rewrite Hno by (by left). apply IH. intros s0 H0. apply Hno. by right.
Qed.

(** A step on another class of entities leaves those of class [c] alone. *)
Lemma do_step_agree (c c' : A → bool) s l :
  (∀ x, c x = true → c' x = false) →
  (∀ x, s_match s x = true → c' x = true) →
  (∀ x, c' (s_update s x) = c' x) → c' (s_new s) = true →
  agree_on c l (do_step l s).
Proof.
  intros Hdis Hm Hu Hn i x Hcx. split.
  - intros Hi. unfold do_step. rewrite (upsert_lookup_old _ _ _ _ _ _ Hi).
    destruct (s_match s x) eqn:Hmx; [|done].
    pose proof (Hm x Hmx). pose proof (Hdis x Hcx). congruence.
  - intros Hi. apply upsert_lookup_inv in Hi as [(y & Hy & ->)|(-> & _ & ->)].
    + destruct (s_match s y) eqn:Hmy; [|done].
      pose proof (Hdis _ Hcx) as Hx. rewrite Hu, (Hm y Hmy) in Hx. done.
    + pose proof (Hdis _ Hcx) as Hx. rewrite Hu, Hn in Hx. done.
Qed.

Lemma agree_on_refl (c : A → bool) l : agree_on c l l.
Proof. by intros i x _. Qed.

Lemma agree_on_trans (c : A → bool) l1 l2 l3 :
  agree_on c l1 l2 → agree_on c l2 l3 → agree_on c l1 l3.
Proof. intros H1 H2 i x Hc. by rewrite (H1 i x Hc), (H2 i x Hc). Qed.

Lemma run_steps_agree (c c' : A → bool) steps l :
  (∀ x, c x = true → c' x = false) →
  (∀ s x, s ∈ steps → s_match s x = true → c' x = true) →
  (∀ s x, s ∈ steps → c' (s_update s x) = c' x) →
  (∀ s, s ∈ steps → c' (s_new s) = true) →
  agree_on c l (run_steps steps l).
Proof.
  intros Hdis. revert l. induction steps as [|s steps IH]; intros l Hm Hu Hn.
  - apply agree_on_refl.
  - simpl. eapply agree_on_trans.
    + apply (do_step_agree c c' s l Hdis).
      * intros x. apply Hm. by left.
      * intros x. apply Hu. by left.
      * apply Hn. by left.
    + apply IH.
      * intros s0 x H0. apply Hm. by right.
      * intros s0 x H0. apply Hu. by right.
      * intros s0 H0. apply Hn. by right.
Qed.

End StepsFacts.

(** *** Loads as sequences of steps *)

Definition node_step (q : node_query) r : option (step node) :=
  m ← eval_pattern r (nq_pattern q);
  Some (Step (node_matches (nq_label q) m) (set_node r (nq_set q))
             (Node (nq_label q) m)).

Definition node_steps (q : node_query) (rows : list (gmap string string))
    : list (step node) :=
  omap (node_step q) rows.

Definition rel_step (t : RelKind) r (sets : list (string * expr)) (ab : nat * nat)
    : step rel :=
  Step (rel_matches t ab.1 ab.2) (set_rel r sets) (Rel t ab.1 ab.2 ∅).

Definition rel_steps (q : rel_query) (rows : list (gmap string string)) σ
    : list (step rel) :=
  r ← rows; rel_step (rq_type q) r (rq_set q) <$> bound_pairs q r σ.

Definition employs_steps σ : list (step rel) :=
  rel_step EMPLOYS ∅ [] <$> employs_pairs σ.

Lemma store_eta σ : Store (nodes σ) (rels σ) (constraints σ) = σ.
Proof. by destruct σ. Qed.

Lemma foldl_merge_rel_steps t r sets σ abs :
  foldl (merge_rel t r sets) σ abs =
  Store (nodes σ) (run_steps (rel_step t r sets <$> abs) (rels σ)) (constraints σ).
Proof.
  revert σ. induction abs as [|ab abs IH]; intros σ; simpl.
  - by rewrite store_eta.
  - by rewrite IH.
Qed.

Lemma run_steps_app {A} (s1 s2 : list (step A)) (l : list A) :
  run_steps (s1 ++ s2) l = run_steps s2 (run_steps s1 l).
Proof. unfold run_steps. by rewrite foldl_app. Qed.

Lemma load_rels_steps q rows σ :
  load_rels q rows σ =
  Store (nodes σ) (run_steps (rel_steps q rows σ) (rels σ)) (constraints σ).
Proof.
  unfold load_rels. revert σ. induction rows as [|r rows IH]; intros σ.
  - simpl. by rewrite store_eta.
  - simpl. rewrite IH. unfold merge_rel_row. rewrite !foldl_merge_rel_steps. simpl.
    rewrite run_steps_app. reflexivity.
Qed.

Lemma infer_employs_steps σ :
  infer_employs σ =
  Store (nodes σ) (run_steps (employs_steps σ) (rels σ)) (constraints σ).
Proof. apply foldl_merge_rel_steps. Qed.

(** A node load that goes through has a pattern for every row, and is the
    sequence of its steps. *)
Lemma load_nodes_steps q rows σ σ' :
  load_nodes q rows σ = inl σ' →
  (∀ r, r ∈ rows → is_Some (eval_pattern r (nq_pattern q))) ∧
  σ' = Store (run_steps (node_steps q rows) (nodes σ)) (rels σ) (constraints σ).
Proof.
  revert σ. induction rows as [|r rows IH]; intros σ; simpl.
  - intros [= <-]. split; [intros r Hr; by apply elem_of_nil in Hr|by rewrite store_eta].
  - unfold merge_node_row, node_steps. simpl. unfold node_step at 1.
    destruct (eval_pattern r (nq_pattern q)) as [m|] eqn:Hm; [|done]. simpl.
    destruct (negb _ && _); [done|]. intros Hload.
    apply IH in Hload as [Hsome ->]. split; [|done].
    intros r' Hr'. apply elem_of_cons in Hr' as [->|Hr']; [by rewrite Hm|by apply Hsome].
Qed.

(** The value [SET] leaves at key [k], from the value [d] it had before. *)
Fixpoint set_result r (sets : list (string * expr)) (k : string) (d : option value)
    : option value :=
  match sets with
  | [] => d
  | (k', e) :: sets' =>
      set_result r sets' k (if decide (k = k') then eval r e else d)
  end.

Lemma apply_sets_lookup r sets m k :
  apply_sets r sets m !! k = set_result r sets k (m !! k).
Proof.
  unfold apply_sets. revert m. induction sets as [|[k' e] sets IH]; intros m; [done|].
  simpl. rewrite IH. f_equal. unfold set_prop. simpl.
  destruct (decide (k = k')) as [->|Hne].
  - destruct (eval r e); [by rewrite lookup_insert_eq|by rewrite lookup_delete_eq].
  - destruct (eval r e); [by rewrite lookup_insert_ne|by rewrite lookup_delete_ne].
Qed.

Lemma set_result_absorb r r' sets k d :
  set_result r sets k (set_result r' sets k d) = set_result r sets k d.
Proof.
  revert d. induction sets as [|[k' e] sets IH]; intros d; [done|].
  simpl. destruct (decide (k = k')) as [->|Hne]; [done|apply IH].
Qed.

(** The [SET] clause of a later row overrides that of an earlier one. *)
Lemma apply_sets_absorb r r' sets m :
  apply_sets r sets (apply_sets r' sets m) = apply_sets r sets m.
Proof.
  apply map_eq. intros k. rewrite !apply_sets_lookup. apply set_result_absorb.
Qed.

Lemma eval_pattern_dom r pat m k :
  eval_pattern r pat = Some m → is_Some (m !! k) → k ∈ pat.*1.
Proof.
  revert m. induction pat as [|[k' e] pat IH]; intros m; simpl.
  - intros [= <-]. rewrite lookup_empty. by intros [? ?].
  - destruct (eval r e) as [v|]; [|done].
    destruct (eval_pattern r pat) as [m0|]; [|done]. intros [= <-].
    destruct (decide (k = k')) as [->|Hne]; [by left|].
    rewrite lookup_insert_ne by done. intros H. right. by apply (IH m0).
Qed.

Lemma node_matches_set_node l m r sets (x : node) :
  (∀ k, is_Some (m !! k) → k ∉ sets.*1) →
  node_matches l m (set_node r sets x) = node_matches l m x.
Proof.
  intros Hdis. unfold node_matches. simpl. f_equal. apply bool_decide_ext.
  unfold map_Forall. split; intros H k v Hk.
  - rewrite <- (apply_sets_other r sets) by (apply Hdis; eauto). by apply H.
  - rewrite apply_sets_other by (apply Hdis; eauto). by apply H.
Qed.

Lemma node_matches_new l m : node_matches l m (Node l m) = true.
Proof.
  unfold node_matches. simpl. rewrite !bool_decide_eq_true_2; [done| |done].
  by intros k v Hk.
Qed.

(** The keys of the pattern are not assigned by the [SET] clause. *)
Definition keys_apart (q : node_query) : Prop :=
  ∀ k, k ∈ (nq_pattern q).*1 → k ∉ (nq_set q).*1.

Lemma node_queries_keys_apart q : q ∈ node_queries → keys_apart q.
Proof.
  unfold node_queries. rewrite !elem_of_cons, elem_of_nil.
  intros [->|[->|[->|[->|[->|[->|[]]]]]]] k; simpl; try (intros _; apply not_elem_of_nil).
  rewrite list_elem_of_singleton. intros ->.
  rewrite !not_elem_of_cons. split_and!; try done. apply not_elem_of_nil.
Qed.

Lemma elem_of_node_steps q rows s :
  s ∈ node_steps q rows ↔
  ∃ r m, r ∈ rows ∧ eval_pattern r (nq_pattern q) = Some m ∧
         s = Step (node_matches (nq_label q) m) (set_node r (nq_set q))
                  (Node (nq_label q) m).
Proof.
  unfold node_steps. rewrite list_elem_of_omap. unfold node_step. split.
  - intros (r & Hr & Hs). destruct (eval_pattern r (nq_pattern q)) as [m|] eqn:Hm; [|done].
    simpl in Hs. simplify_eq. by exists r, m.
  - intros (r & m & Hr & Hm & ->). exists r. by rewrite Hm.
Qed.

Lemma node_steps_absorbing q rows : keys_apart q → absorbing (node_steps q rows).
Proof.
  intros Hq. split.
  - intros s s' x Hs Hs'. apply elem_of_node_steps in Hs as (r & m & _ & _ & ->).
    apply elem_of_node_steps in Hs' as (r' & m' & _ & Hm' & ->). simpl.
    apply node_matches_set_node. intros k Hk.
    by eapply Hq, eval_pattern_dom.
  - intros s s' x Hs Hs'. apply elem_of_node_steps in Hs as (r & m & _ & _ & ->).
    apply elem_of_node_steps in Hs' as (r' & m' & _ & _ & ->). simpl.
    unfold set_node. simpl. by rewrite apply_sets_absorb.
  - intros s Hs. apply elem_of_node_steps in Hs as (r & m & _ & _ & ->). simpl.
    apply node_matches_new.
Qed.

Lemma rel_matches_new t a b : rel_matches t a b (Rel t a b ∅) = true.
Proof. unfold rel_matches. simpl. by rewrite !bool_decide_eq_true_2. Qed.

Lemma rel_steps_absorbing_gen (t : RelKind) sets (steps : list (step rel)) :
  (∀ s, s ∈ steps → ∃ r ab, s = rel_step t r sets ab) → absorbing steps.
Proof.
  intros Hall. split.
  - intros s s' x Hs Hs'. destruct (Hall s Hs) as (r & ab & ->).
    destruct (Hall s' Hs') as (r' & ab' & ->). done.
  - intros s s' x Hs Hs'. destruct (Hall s Hs) as (r & ab & ->).
    destruct (Hall s' Hs') as (r' & ab' & ->). simpl.
    unfold set_rel. simpl. by rewrite apply_sets_absorb.
  - intros s Hs. destruct (Hall s Hs) as (r & ab & ->). apply rel_matches_new.
Qed.

Lemma elem_of_rel_steps q rows σ s :
  s ∈ rel_steps q rows σ ↔
  ∃ r ab, r ∈ rows ∧ ab ∈ bound_pairs q r σ ∧ s = rel_step (rq_type q) r (rq_set q) ab.
Proof.
  unfold rel_steps. rewrite list_elem_of_bind. split.
  - intros (r & Hs & Hr). apply list_elem_of_fmap in Hs as (ab & -> & Hab). by exists r, ab.
  - intros (r & ab & Hr & Hab & ->). exists r. split; [|done]. by apply list_elem_of_fmap_2.
Qed.

Lemma rel_steps_absorbing q rows σ : absorbing (rel_steps q rows σ).
Proof.
  apply (rel_steps_absorbing_gen (rq_type q) (rq_set q)).
  intros s Hs. apply elem_of_rel_steps in Hs as (r & ab & _ & _ & ->). eauto.
Qed.

Lemma employs_steps_absorbing σ : absorbing (employs_steps σ).
Proof.
  apply (rel_steps_absorbing_gen EMPLOYS []).
  intros s Hs. apply list_elem_of_fmap in Hs as (ab & -> & _). eauto.
Qed.

(** *** Statements that find everything in place *)

(** [stable src s σ]: statement [s] has nothing left to do on [σ]. *)
Definition stable src (s : stmt) σ : Prop :=
  match s with
  | SetConstraint l => (l, "id") ∈ constraints σ
  | LoadNodes q =>
      (∀ r, r ∈ src (nq_csv q) → is_Some (eval_pattern r (nq_pattern q))) ∧
      stable_list (node_steps q (src (nq_csv q))) (nodes σ)
  | LoadRels q => stable_list (rel_steps q (src (rq_csv q)) σ) (rels σ)
  | InferEmploys => stable_list (employs_steps σ) (rels σ)
  end.

Definition good (s : stmt) : Prop :=
  match s with
  | LoadNodes q => keys_apart q
  | _ => True
  end.

(** [frame_ok s0 s]: running [s] after [s0] cannot undo what [s0] did. *)
Definition frame_ok (s0 s : stmt) : bool :=
  match s0, s with
  | SetConstraint _, _ => true
  | LoadNodes q0, LoadNodes q => negb (bool_decide (nq_label q0 = nq_label q))
  | LoadNodes _, (LoadRels _ | InferEmploys) => true
  | LoadRels q0, LoadRels q => negb (bool_decide (rq_type q0 = rq_type q))
  | LoadRels q0, InferEmploys => negb (bool_decide (rq_type q0 = EMPLOYS))
  | _, _ => false
  end.

Fixpoint ordered (qs : list stmt) : bool :=
  match qs with
  | [] => true
  | q :: qs' => forallb (frame_ok q) qs' && ordered qs'
  end.

Lemma do_step_exists {A} (steps : list (step A)) s s' (l : list A) :
  absorbing steps → s ∈ steps → s' ∈ steps →
  existsb (s_match s') l = true → existsb (s_match s') (do_step l s) = true.
Proof.
  intros Habs Hs Hs' Hex. apply existsb_true_lookup in Hex as (i & x & Hi & Hp).
  apply existsb_true_lookup. exists i, (touch s x).
  split; [by apply upsert_lookup_old|]. by rewrite (touch_match steps).
Qed.

Lemma load_nodes_closed q (steps : list (step node)) rows σ :
  absorbing steps → (∀ s, s ∈ node_steps q rows → s ∈ steps) →
  (∀ r, r ∈ rows → is_Some (eval_pattern r (nq_pattern q))) →
  (∀ s, s ∈ node_steps q rows → existsb (s_match s) (nodes σ) = true) →
  load_nodes q rows σ =
  inl (Store (run_steps (node_steps q rows) (nodes σ)) (rels σ) (constraints σ)).
Proof.
  intros Habs. revert σ. induction rows as [|r rows IH]; intros σ Hsub Hsome Hex.
  - simpl. by rewrite store_eta.
  - destruct (Hsome r) as [m Hm]; [by left|].
    assert (node_steps q (r :: rows) =
            Step (node_matches (nq_label q) m) (set_node r (nq_set q))
                 (Node (nq_label q) m) :: node_steps q rows) as Hsteps.
    { unfold node_steps. simpl. unfold node_step at 1. by rewrite Hm. }
    rewrite Hsteps in *. simpl. unfold merge_node_row. rewrite Hm.
    pose proof (Hex _ (list_elem_of_here _ _)) as Hhere. simpl in Hhere.
    rewrite Hhere. simpl.
    rewrite IH; [done|..].
    + intros s Hs. apply Hsub. by right.
    + intros r' Hr'. apply Hsome. by right.
    + intros s Hs. simpl.
      apply (do_step_exists steps
               (Step (node_matches (nq_label q) m) (set_node r (nq_set q))
                     (Node (nq_label q) m)) s (nodes σ) Habs).
      * apply Hsub. by left.
      * apply Hsub. by right.
      * apply Hex. by right.
Qed.

Lemma stable_exec src s σ : good s → stable src s σ → exec_stmt src s σ = inl σ.
Proof.
  destruct s as [l|q|q|]; simpl; intros Hgood Hst.
  - unfold _set_uniqueness_constraints, create_constraint.
    by rewrite bool_decide_eq_true_2.
  - destruct Hst as [Hsome Hst].
    pose proof (node_steps_absorbing q (src (nq_csv q)) Hgood) as Habs.
    rewrite (load_nodes_closed q (node_steps q (src (nq_csv q)))); [|done|done|done|apply Hst].
    by rewrite stable_run_steps, store_eta.
  - rewrite load_rels_steps, stable_run_steps, store_eta;
      [done|apply rel_steps_absorbing|done].
  - rewrite infer_employs_steps, stable_run_steps, store_eta;
      [done|apply employs_steps_absorbing|done].
Qed.

Lemma exec_stable src s σ σ' :
  good s → exec_stmt src s σ = inl σ' → stable src s σ'.
Proof.
  destruct s as [l|q|q|]; simpl; intros Hgood Hexec.
  - by apply create_constraint_inv in Hexec as (_ & _ & Hin & _).
  - apply load_nodes_steps in Hexec as [Hsome ->]. split; [done|]. simpl.
    by apply run_steps_stable, node_steps_absorbing.
  - simplify_eq. rewrite load_rels_steps. simpl.
    apply (run_steps_stable (rel_steps q (src (rq_csv q)) σ)), rel_steps_absorbing.
  - simplify_eq. rewrite infer_employs_steps. simpl.
    apply (run_steps_stable (employs_steps σ)), employs_steps_absorbing.
Qed.

Lemma node_steps_label q rows s (x : node) :
  s ∈ node_steps q rows →
  (s_match s x = true → n_label x = nq_label q) ∧
  n_label (s_update s x) = n_label x ∧ n_label (s_new s) = nq_label q.
Proof.
  intros Hs. apply elem_of_node_steps in Hs as (r & m & _ & _ & ->). simpl.
  split; [|done]. unfold node_matches. rewrite andb_true_iff, bool_decide_eq_true.
  by intros [? _].
Qed.

Lemma rel_step_type t r sets ab (x : rel) :
  (s_match (rel_step t r sets ab) x = true → r_type x = t) ∧
  r_type (s_update (rel_step t r sets ab) x) = r_type x ∧
  r_type (s_new (rel_step t r sets ab)) = t.
Proof.
  simpl. split; [|done]. unfold rel_matches.
  rewrite !andb_true_iff, !bool_decide_eq_true. by intros [[? _] _].
Qed.

(** Steps on relationships of kind [t] leave those of kind [t0] alone. *)
Lemma rel_steps_agree t0 t sets (steps : list (step rel)) (l : list rel) :
  t0 ≠ t → (∀ s, s ∈ steps → ∃ r ab, s = rel_step t r sets ab) →
  agree_on (λ e, bool_decide (r_type e = t0)) l (run_steps steps l).
Proof.
  intros Hne Hall.
  apply (run_steps_agree _ (λ e, bool_decide (r_type e = t))).
  - intros x. rewrite bool_decide_eq_true, bool_decide_eq_false. congruence.
  - intros s x Hs Hm. destruct (Hall s Hs) as (r & ab & ->).
    apply bool_decide_eq_true. by apply (rel_step_type t r sets ab x).
  - intros s x Hs. by destruct (Hall s Hs) as (r & ab & ->).
  - intros s Hs. destruct (Hall s Hs) as (r & ab & ->).
    by apply bool_decide_eq_true.
Qed.

Lemma rel_stable_agree t (steps : list (step rel)) sets (l l' : list rel) :
  (∀ s, s ∈ steps → ∃ r ab, s = rel_step t r sets ab) →
  agree_on (λ e, bool_decide (r_type e = t)) l l' →
  stable_list steps l → stable_list steps l'.
Proof.
  intros Hall. apply stable_list_agree.
  intros s x Hs Hm. destruct (Hall s Hs) as (r & ab & ->).
  apply bool_decide_eq_true. by apply (rel_step_type t r sets ab x).
Qed.

(** A later statement of the pipeline keeps an earlier one stable. *)
Lemma stable_frame src s0 s σ σ' :
  frame_ok s0 s = true → stable src s0 σ → exec_stmt src s σ = inl σ' →
  stable src s0 σ'.
Proof.
  destruct s0 as [l0|q0|q0|]; [| | |done].
  - (* a constraint stays *)
    intros _ Hst Hexec. simpl in *. destruct s as [l|q|q|]; simpl in Hexec.
    + apply create_constraint_inv in Hexec as (_ & _ & _ & Hmono). by apply Hmono.
    + by apply load_nodes_steps in Hexec as [_ ->].
    + simplify_eq. by rewrite load_rels_constraints.
    + simplify_eq. by rewrite infer_employs_constraints.
  - (* a node load *)
    destruct s as [l|q|q|]; [done| | |]; simpl; intros Hok [Hsome Hst] Hexec.
    + apply negb_true_iff, bool_decide_eq_false in Hok.
      apply load_nodes_steps in Hexec as [_ ->]. split; [done|]. simpl.
      apply (stable_list_agree (λ n, bool_decide (n_label n = nq_label q0)) _ (nodes σ));
        [|apply (run_steps_agree _ (λ n, bool_decide (n_label n = nq_label q)))|done].
      * intros s0 x Hs0 Hm. apply bool_decide_eq_true.
        by apply (node_steps_label q0 _ s0 x Hs0).
      * intros x. rewrite bool_decide_eq_true, bool_decide_eq_false. congruence.
      * intros s0 x Hs0 Hm. apply bool_decide_eq_true.
        by apply (node_steps_label q _ s0 x Hs0).
      * intros s0 x Hs0. by destruct (node_steps_label q _ s0 x Hs0) as (_ & -> & _).
      * intros s0 Hs0. apply bool_decide_eq_true.
        by apply (node_steps_label q _ s0 (s_new s0) Hs0).
    + simplify_eq. by rewrite load_rels_nodes.
    + simplify_eq. by rewrite infer_employs_nodes.
  - (* a relationship load *)
    destruct s as [l|q|q|]; [done|done| |]; simpl; intros Hok Hst Hexec;
      apply negb_true_iff, bool_decide_eq_false in Hok; simplify_eq.
    + rewrite load_rels_steps.
      change (stable_list (rel_steps q0 (src (rq_csv q0)) σ)
                (run_steps (rel_steps q (src (rq_csv q)) σ) (rels σ))).
      apply (rel_stable_agree (rq_type q0) _ (rq_set q0) (rels σ)); [| |done].
      * intros s Hs. apply elem_of_rel_steps in Hs as (r & ab & _ & _ & ->). eauto.
      * apply (rel_steps_agree _ (rq_type q) (rq_set q)); [done|].
        intros s Hs. apply elem_of_rel_steps in Hs as (r & ab & _ & _ & ->). eauto.
    + rewrite infer_employs_steps.
      change (stable_list (rel_steps q0 (src (rq_csv q0)) σ)
                (run_steps (employs_steps σ) (rels σ))).
      apply (rel_stable_agree (rq_type q0) _ (rq_set q0) (rels σ)); [| |done].
      * intros s Hs. apply elem_of_rel_steps in Hs as (r & ab & _ & _ & ->). eauto.
      * apply (rel_steps_agree _ EMPLOYS []); [done|].
        intros s Hs. apply list_elem_of_fmap in Hs as (ab & -> & _). eauto.
Qed.

(** *** Running the pipeline again *)

(** A run leaves stable every statement that went through, and stops at
    the first statement that fails. *)
Lemma first_run src qs (prev : list stmt) σ tr :
  (∀ s, s ∈ qs → good s) → ordered qs = true →
  (∀ s0, s0 ∈ prev → forallb (frame_ok s0) qs = true) →
  (∀ s0, s0 ∈ prev → stable src s0 σ) →
  (∀ s0, s0 ∈ prev → stable src s0 (final (run_stmts src None qs σ tr))) ∧
  ∃ k, (∀ s, s ∈ take k qs → stable src s (final (run_stmts src None qs σ tr))) ∧
       ((raised (run_stmts src None qs σ tr) = None ∧ k = length qs ∧
         sent (run_stmts src None qs σ tr) = tr ++ qs) ∨
        (∃ s e, qs !! k = Some s ∧
                exec_stmt src s (final (run_stmts src None qs σ tr)) = inr e ∧
                raised (run_stmts src None qs σ tr) = Some e ∧
                sent (run_stmts src None qs σ tr) = tr ++ take (S k) qs)).
Proof.
  revert prev σ tr. induction qs as [|q qs IH]; intros prev σ tr Hgood Hord Hfr Hst.
  - simpl. split; [done|]. exists 0%nat. split; [intros s Hs; by apply elem_of_nil in Hs|].
    left. by rewrite app_nil_r.
  - simpl in Hord. apply andb_true_iff in Hord as [Hq Hord].
    simpl. destruct (exec_stmt src q σ) as [σ1|e] eqn:Hexec; simpl.
    + destruct (IH (prev ++ [q]) σ1 (tr ++ [q])) as [Hdone (k & Hk & Hres)].
      * intros s Hs. apply Hgood. by right.
      * done.
      * intros s0 H0. apply elem_of_app in H0 as [H0|H0].
        -- specialize (Hfr s0 H0). simpl in Hfr. by apply andb_true_iff in Hfr as [_ ?].
        -- by apply list_elem_of_singleton in H0 as ->.
      * intros s0 H0. apply elem_of_app in H0 as [H0|H0].
        -- apply (stable_frame src s0 q σ); [|by apply Hst|done].
           specialize (Hfr s0 H0). simpl in Hfr. by apply andb_true_iff in Hfr as [? _].
        -- apply list_elem_of_singleton in H0 as ->.
           apply (exec_stable src q σ); [|done]. apply Hgood. by left.
      * split; [intros s0 H0; apply Hdone, elem_of_app; by left|].
        exists (S k). split.
        -- simpl. intros s Hs. apply elem_of_cons in Hs as [->|Hs]; [|by apply Hk].
           apply Hdone, elem_of_app. right. by left.
        -- destruct Hres as [(Hr & -> & Hs)|(s & e & Hs & He & Hr & Hsent)].
           ++ left. rewrite Hs, <- app_assoc. done.
           ++ right. exists s, e. rewrite Hsent, <- app_assoc. done.
    + split; [done|]. exists 0%nat. split; [intros s Hs; by apply elem_of_nil in Hs|].
      right. by exists q, e.
Qed.

(** On a store where the first [k] statements are stable, a run changes
    nothing and ends as the [k]-th statement decides. *)
Lemma replay src qs σ tr k :
  (∀ s, s ∈ qs → good s) → (∀ s, s ∈ take k qs → stable src s σ) →
  (k = length qs → run_stmts src None qs σ tr = RunResult σ (tr ++ qs) None) ∧
  (∀ s e, qs !! k = Some s → exec_stmt src s σ = inr e →
     run_stmts src None qs σ tr = RunResult σ (tr ++ take (S k) qs) (Some e)).
Proof.
  revert k tr. induction qs as [|q qs IH]; intros k tr Hgood Hst.
  - split; [intros _; simpl; by rewrite app_nil_r|]. intros s e Hs. by rewrite lookup_nil in Hs.
  - destruct k as [|k].
    + split; [done|]. intros s e [= <-] He. simpl. by rewrite He.
    + simpl in Hst.
      assert (exec_stmt src q σ = inl σ) as Hq.
      { apply stable_exec; [apply Hgood|apply Hst]; by left. }
      destruct (IH k (tr ++ [q])) as [Hall Hfail].
      * intros s Hs. apply Hgood. by right.
      * intros s Hs. apply Hst. by right.
      * simpl. rewrite Hq. split.
        -- intros [= Hk]. rewrite (Hall Hk), <- app_assoc. done.
        -- intros s e Hs He. rewrite (Hfail s e Hs He), <- app_assoc. done.
Qed.

Lemma pipeline_good s : s ∈ pipeline → good s.
Proof.
  unfold pipeline. rewrite !elem_of_app. intros [Hs|[Hs|[Hs|Hs]]].
  - by apply list_elem_of_fmap in Hs as (l & -> & _).
  - apply list_elem_of_fmap in Hs as (q & -> & Hq). by apply node_queries_keys_apart.
  - by apply list_elem_of_fmap in Hs as (q & -> & _).
  - by apply list_elem_of_singleton in Hs as ->.
Qed.

Lemma pipeline_ordered : ordered pipeline = true.
Proof. reflexivity. Qed.

(** An attempt on the store a first attempt left, with the same sources,
    changes nothing and ends the same way. *)
Lemma attempt_idempotent src σ :
  run_attempt src None (final (run_attempt src None σ)) = run_attempt src None σ.
Proof.
  unfold run_attempt.
  destruct (first_run src pipeline [] σ [] pipeline_good pipeline_ordered)
    as [_ (k & Hk & Hres)].
  { intros s Hs. by apply elem_of_nil in Hs. }
  { intros s Hs. by apply elem_of_nil in Hs. }
  destruct (replay src pipeline (final (run_stmts src None pipeline σ [])) [] k
              pipeline_good Hk) as [Hall Hfail].
  destruct Hres as [(Hr & Hlen & Hs)|(s & e & Hs & He & Hr & Hsent)].
  - rewrite (Hall Hlen).
    destruct (run_stmts src None pipeline σ []); simpl in *. by subst.
  - rewrite (Hfail s e Hs He).
    destruct (run_stmts src None pipeline σ []); simpl in *. by subst.
Qed.

(** With a reachable store, the retried call leaves the store of a single
    attempt: a failed attempt is repeated on the store it left, where it
    changes nothing and fails again. *)
Lemma load_store src (w : world) :
  w_store (load_hospital_graph_from_csv src (λ _, None) w).1 =
    final (run_attempt src None (w_store w)) ∧
  (load_hospital_graph_from_csv src (λ _, None) w).2 =
    raised (run_attempt src None (w_store w)).
Proof.
  unfold load_hospital_graph_from_csv, retry, attempt. cbn [w_store w_attempts w_slept].
  destruct (raised (run_attempt src None (w_store w))) as [e|] eqn:H1; [|done].
  cbn [w_store w_attempts w_slept]. rewrite !attempt_idempotent, H1. done.
Qed.

(** C2. Running the pipeline a second time, on the store the first run
    left from the empty store, changes nothing: the store is the same, so
    the number of nodes of every kind and of relationships of every kind is
    the same, the run ends the same way, and no two relationships of one
    kind join the same ordered pair of nodes.  The same holds for two calls
    of the retried function. *)
Theorem load_idempotent src :
  let once := run_attempt src None empty_store in
  let twice := run_attempt src None (final once) in
  final twice = final once ∧ raised twice = raised once ∧
  (∀ K, count_nodes K (final twice) = count_nodes K (final once)) ∧
  (∀ T, count_rels T (final twice) = count_rels T (final once)) ∧
  rels_unique (final twice) ∧
  (let w1 := (load_hospital_graph_from_csv src (λ _, None) (World empty_store 0 [])).1 in
   let w2 := (load_hospital_graph_from_csv src (λ _, None) w1).1 in
   w_store w1 = final once ∧ w_store w2 = w_store w1).
Proof.
  intros once twice.
  assert (twice = once) as Heq by apply attempt_idempotent.
  rewrite Heq. split_and!; try done.
  - apply wf_rels, reachable_wf. constructor. constructor.
  - intros w1 w2.
    assert (w_store w1 = final once) as H1
      by apply (load_store src (World empty_store 0 [])).
    split; [done|]. unfold w2. rewrite (proj1 (load_store src w1)), H1.
    apply (f_equal final (attempt_idempotent src empty_store)).
Qed.

(** *** The EMPLOYS inference *)




(** *** Relationship attributes *)

Lemma filter_singleton {A} (p : A → bool) (l : list A) (x : A) :
  (∀ i j y z, l !! i = Some y → l !! j = Some z → p y = true → p z = true → i = j) →
  x ∈ l → p x = true → List.filter p l = [x].
Proof.
  induction l as [|y l IH]; intros Huniq Hin Hp; [by apply elem_of_nil in Hin|].
  assert (∀ i j y0 z, l !! i = Some y0 → l !! j = Some z →
            p y0 = true → p z = true → i = j) as Huniq'.
  { intros i j y0 z Hi Hj Hy Hz.
    by pose proof (Huniq (S i) (S j) y0 z Hi Hj Hy Hz) as [= ->]. }
  simpl. destruct (p y) eqn:Hy.
  - assert (∀ z, z ∈ l → p z = false) as Hnone.
    { intros z Hz. destruct (p z) eqn:Hpz; [|done].
      apply list_elem_of_lookup in Hz as [j Hj].
      by pose proof (Huniq 0%nat (S j) y z eq_refl Hj Hy Hpz). }
    apply elem_of_cons in Hin as [->|Hin]; [|rewrite (Hnone x Hin) in Hp; done].
    f_equal. destruct (List.filter p l) as [|z zs] eqn:Hf; [done|].
    assert (In z (List.filter p l)) as Hz by (rewrite Hf; by left).
    apply filter_In in Hz as [Hz Hpz]. apply list_elem_of_In in Hz.
    rewrite (Hnone z Hz) in Hpz. done.
  - apply elem_of_cons in Hin as [->|Hin]; [congruence|]. by apply IH.
Qed.




(** *** The keys of the statements *)

(** C10. The property of the uniqueness constraint and the property of
    every endpoint lookup is [id], for every kind; the pattern every node
    load merges on contains [id], and is [id] alone for Visit only: the
    other five kinds merge on [id] together with all their attributes. *)
Theorem merge_key_table :
  (∀ l σ, _set_uniqueness_constraints l σ = create_constraint l "id" σ) ∧
  (λ q, (ep_label (rq_first q), ep_key (rq_first q),
         ep_label (rq_second q), ep_key (rq_second q))) <$> rel_queries =
    [(Patient, "id", Visit, "id"); (Visit, "id", Hospital, "id");
     (Visit, "id", Physician, "id"); (Visit, "id", Payer, "id");
     (Visit, "id", Review, "id")] ∧
  (λ q, (nq_label q, (nq_pattern q).*1)) <$> node_queries =
    [(Hospital, ["id"; "name"; "state_name"]);
     (Payer, ["id"; "name"]);
     (Physician, ["id"; "name"; "dob"; "grad_year"; "school"]);
     (Patient, ["id"; "name"; "sex"; "dob"; "blood_type"]);
     (Visit, ["id"]);
     (Review, ["id"; "physician_name"; "hospital_name"; "patient_name"; "text"])].
Proof. done. Qed.

End Properties.

(** ** Examples *)

Module Examples.
Import Sample.

Lemma demo_store_reachable : reachable demo_store.
Proof. apply reachable_attempt, reachable_empty. Qed.

(** The run on the sample sources goes through.  The EMPLOYS relationships
    are (3, 27) and (12, 18) and no other: (3 + 9) mod 30 = 12.  The second
    visit names a payer that does not exist: it has no COVERED_BY. *)
Example demo_run :
  raised (run_attempt demo None empty_store) = None ∧
  length (nodes demo_store) = 10%nat ∧
  ends_of EMPLOYS demo_store = [(Some 3, Some 27); (Some 12, Some 18)] ∧
  ends_of COVERED_BY demo_store = [(Some 100, Some 1)] ∧
  ends_of AT demo_store = [(Some 100, Some 9); (Some 101, Some 18)].
Proof. vm_compute. done. Qed.

(** C1, on the sample store.  Hospital 9 is loaded with the name "North".
    A second run whose hospital source gives hospital 9 the name "Northern"
    does not update the node: the MERGE is on identifier, name and state
    together, nothing matches, the creation of a second node with
    identifier 9 breaks the uniqueness constraint, and the run (and the
    retried call) ends with that error, the old name still in the store.
    The Visit load, which merges on the identifier alone and then sets the
    attributes, does update: visit 100 moves from room 101 to room 202. *)
Theorem hospital_rename_rejected :
  texts_of Hospital "name" demo_store = [Some "North"; Some "South"; Some "West"]%string ∧
  exec_stmt demo_renamed (LoadNodes hospital_nodes) demo_store =
    inr ConstraintViolation ∧
  raised (run_attempt demo_renamed None demo_store) = Some ConstraintViolation ∧
  texts_of Hospital "name" (final (run_attempt demo_renamed None demo_store)) =
    [Some "North"; Some "South"; Some "West"]%string ∧
  (load_hospital_graph_from_csv demo_renamed (λ _, None) (World demo_store 0 [])).2 =
    Some ConstraintViolation ∧
  ints_of Visit "room_number" demo_store = [Some 101; Some 102] ∧
  raised (run_attempt demo_moved None demo_store) = None ∧
  ints_of Visit "room_number" (final (run_attempt demo_moved None demo_store)) =
    [Some 202; Some 102].
Proof. split_and!; reflexivity. Qed.

(** The theorems with hypotheses, on the sample sources. *)

Lemma identifier_uniqueness_witness :
  reachable demo_store ∧ id_unique demo_store.
Proof.
  split; [exact demo_store_reachable|].
  intros i j ni nj v Hi Hj Hl Hvi Hvj.
  apply (proj1 (identifier_uniqueness demo_store demo_store_reachable)
           (n_label ni) v i j ni nj); congruence.
Defined.


(** Visit 101 names payer 2, which is not loaded. *)
Lemma referential_tolerance_witness :
  resolve (rq_second covered_by_rels) visit_101 demo_store = [] ∧
  merge_rel_row covered_by_rels demo_store visit_101 = demo_store.
Proof.
  split; [reflexivity|].
  apply (referential_tolerance demo covered_by_rels [] visit_101 [] demo_store).
  right. reflexivity.
Defined.


Lemma retry_policy_witness :
  down_twice 0 = Some 0%nat ∧ down_twice 1 = Some 0%nat ∧
  load_hospital_graph_from_csv demo down_twice (World empty_store 0 []) =
    (World demo_store 3 [10; 10], None).
Proof.
  split_and!; [reflexivity..|].
  destruct (retry_policy demo down_twice empty_store eq_refl eq_refl) as (_ & H & _).
  unfold demo_store. apply H.
  - reflexivity.
  - vm_compute. reflexivity.
Defined.


End Examples.

(** ** Further properties of the pipeline *)

Section Further.
Context `{CF : CypherFunctions}.

Implicit Types (σ : store) (r : gmap string string) (m : gmap string value).
Implicit Types (src : Csv → list (gmap string string)).

(** *** Nothing is deleted, relabelled or re-keyed *)

(** [σ'] has every node of [σ] at the same position, with the same label
    and identifier, every relationship of [σ] at the same position, with
    the same kind and ends, and every constraint of [σ]. *)
Definition extends σ σ' : Prop :=
  (∀ i n, nodes σ !! i = Some n →
     ∃ n', nodes σ' !! i = Some n' ∧ n_label n' = n_label n ∧ node_id n' = node_id n) ∧
  (∀ i e, rels σ !! i = Some e →
     ∃ e', rels σ' !! i = Some e' ∧ r_type e' = r_type e ∧
           r_src e' = r_src e ∧ r_dst e' = r_dst e) ∧
  (∀ c, c ∈ constraints σ → c ∈ constraints σ').

Lemma extends_refl σ : extends σ σ.
Proof. split_and!; eauto. Qed.

Lemma extends_trans σ1 σ2 σ3 : extends σ1 σ2 → extends σ2 σ3 → extends σ1 σ3.
Proof.
  intros (Hn1 & Hr1 & Hc1) (Hn2 & Hr2 & Hc2). split_and!.
  - intros i n Hi. destruct (Hn1 i n Hi) as (n' & Hi' & Hl & Hid).
    destruct (Hn2 i n' Hi') as (n'' & Hi'' & Hl' & Hid'). exists n''.
    split_and!; [done|congruence..].
  - intros i e Hi. destruct (Hr1 i e Hi) as (e' & Hi' & Ht & Hs & Hd).
    destruct (Hr2 i e' Hi') as (e'' & Hi'' & Ht' & Hs' & Hd'). exists e''.
    split_and!; [done|congruence..].
  - auto.
Qed.

(** Steps whose updates keep an observation [f] keep it at every position. *)
Lemma run_steps_lookup_old {A B} (f : A → B) (steps : list (step A)) (l : list A) i x :
  (∀ s y, s ∈ steps → f (s_update s y) = f y) →
  l !! i = Some x → ∃ x', run_steps steps l !! i = Some x' ∧ f x' = f x.
Proof.
  revert l x. induction steps as [|s steps IH]; intros l x Hf Hi; [by exists x|].
  simpl. destruct (IH (do_step l s) (touch s x)) as (x' & Hx' & Hfx).
  - intros s0 y H0. apply Hf. by right.
  - by apply upsert_lookup_old.
  - exists x'. split; [done|]. rewrite Hfx. unfold touch.
    destruct (s_match s x); [|done]. apply Hf. by left.
Qed.

Lemma node_steps_keep_key q rows s (y : node) :
  "id" ∉ (nq_set q).*1 → s ∈ node_steps q rows →
  (n_label (s_update s y), node_id (s_update s y)) = (n_label y, node_id y).
Proof.
  intros Hid Hs. apply elem_of_node_steps in Hs as (r & m & _ & _ & ->). simpl.
  by rewrite set_node_id.
Qed.

Lemma exec_extends src s σ σ' :
  s ∈ pipeline → exec_stmt src s σ = inl σ' → extends σ σ'.
Proof.
  unfold pipeline. rewrite !elem_of_app. intros [Hs|[Hs|[Hs|Hs]]] Hexec.
  - apply list_elem_of_fmap in Hs as (l & -> & _).
    apply create_constraint_inv in Hexec as (Hn & Hr & _ & Hc).
    split_and!; [rewrite Hn|rewrite Hr|done]; eauto.
  - apply list_elem_of_fmap in Hs as (q & -> & Hq). simpl in Hexec.
    apply load_nodes_steps in Hexec as [_ ->].
    destruct (node_queries_well_keyed q Hq) as (c & rest & _ & Hid).
    split_and!; simpl; [|by eauto|done].
    intros i n Hi.
    destruct (run_steps_lookup_old (λ y, (n_label y, node_id y))
                (node_steps q (src (nq_csv q))) (nodes σ) i n) as (n' & Hn' & Hk);
      [intros s0 y H0; by apply (node_steps_keep_key q (src (nq_csv q)))|done|].
    exists n'. by simplify_eq.
  - apply list_elem_of_fmap in Hs as (q & -> & Hq). simpl in Hexec. simplify_eq.
    rewrite load_rels_steps. split_and!; simpl; [by eauto| |done].
    intros i e Hi.
    destruct (run_steps_lookup_old (λ y, (r_type y, r_src y, r_dst y))
                (rel_steps q (src (rq_csv q)) σ) (rels σ) i e) as (e' & He' & Hk);
      [|done|exists e'; by simplify_eq].
    intros s0 y H0. by apply elem_of_rel_steps in H0 as (r & ab & _ & _ & ->).
  - apply list_elem_of_singleton in Hs as ->. simpl in Hexec. simplify_eq.
    rewrite infer_employs_steps. split_and!; simpl; [by eauto| |done].
    intros i e Hi.
    destruct (run_steps_lookup_old (λ y, (r_type y, r_src y, r_dst y))
                (employs_steps σ) (rels σ) i e) as (e' & He' & Hk);
      [|done|exists e'; by simplify_eq].
    intros s0 y H0. by apply list_elem_of_fmap in H0 as (ab & -> & _).
Qed.

(** X1. An attempt, completed or not, on any store and any sources, never
    removes, moves or relabels a node and never changes its identifier;
    never removes a relationship or changes its kind or its ends; and
    never drops a constraint.  The retried call as a whole does not
    either. *)
Theorem attempt_only_adds src σ :
  (∀ fault, extends σ (final (run_attempt src fault σ))) ∧
  (∀ faults (w : world), w_store w = σ →
     extends σ (w_store (load_hospital_graph_from_csv src faults w).1)).
Proof.
  assert (∀ fault σ0, extends σ0 (final (run_attempt src fault σ0))) as Hrun.
  { intros fault σ0. apply (run_stmts_inv (extends σ0)); [|apply extends_refl].
    intros s σ1 σ2 Hs Hext Hexec. eapply extends_trans; [done|].
    by eapply exec_extends. }
  split; [intros fault; apply Hrun|].
  intros faults w <-. unfold load_hospital_graph_from_csv.
  generalize 10 at 1. generalize 3%nat. intros tries. revert w.
  induction tries as [|n IH]; intros w delay; [apply extends_refl|].
  simpl. destruct (raised _) eqn:Hr.
  - destruct n as [|n]; [apply Hrun|].
    eapply extends_trans; [apply (Hrun (faults (w_attempts w)))|].
    apply (IH (World _ _ _)).
  - apply Hrun.
Qed.

(** *** The graph follows the ontology of the statements *)

(** The kinds of the two ends of each kind of relationship, as the
    statements create them. *)
Definition rel_schema (t : RelKind) : NodeKind * NodeKind :=
  match t with
  | HAS => (Patient, Visit)
  | AT => (Visit, Hospital)
  | TREATS => (Physician, Visit)
  | COVERED_BY => (Visit, Payer)
  | WRITES => (Visit, Review)
  | EMPLOYS => (Physician, Hospital)
  end.

(** The ends of every relationship exist and have the kinds of its kind. *)
Definition typed σ : Prop :=
  ∀ e, e ∈ rels σ →
    ∃ p h, nodes σ !! r_src e = Some p ∧ nodes σ !! r_dst e = Some h ∧
           n_label p = (rel_schema (r_type e)).1 ∧
           n_label h = (rel_schema (r_type e)).2.

(** Only COVERED_BY relationships have properties, and only the two the
    statement sets. *)
Definition rel_props_ok (e : rel) : Prop :=
  ∀ k, is_Some (r_props e !! k) →
    r_type e = COVERED_BY ∧ (k = "service_date" ∨ k = "billing_amount").

Lemma apply_sets_dom r sets m k :
  is_Some (apply_sets r sets m !! k) → is_Some (m !! k) ∨ k ∈ sets.*1.
Proof.
  destruct (decide (k ∈ sets.*1)) as [Hin|Hnot]; [by right|].
  rewrite apply_sets_other by done. by left.
Qed.

Lemma elem_of_resolve ep r σ i (n : node) :
  (i, n) ∈ resolve ep r σ → nodes σ !! i = Some n ∧ n_label n = ep_label ep.
Proof.
  unfold resolve, match_prop. destruct (eval r (ep_value ep)); [|by intros ?%elem_of_nil].
  rewrite elem_of_matches. unfold node_matches.
  rewrite andb_true_iff, bool_decide_eq_true. by intros [? [? _]].
Qed.

Lemma elem_of_bound_pairs q r σ a b :
  (a, b) ∈ bound_pairs q r σ →
  ∃ na nb, nodes σ !! a = Some na ∧ nodes σ !! b = Some nb ∧
    n_label na = (if rq_from_first q then ep_label (rq_first q)
                  else ep_label (rq_second q)) ∧
    n_label nb = (if rq_from_first q then ep_label (rq_second q)
                  else ep_label (rq_first q)).
Proof.
  unfold bound_pairs. intros Hin.
  apply list_elem_of_fmap in Hin as ([x y] & Heq & Hin).
  apply list_elem_of_In, in_prod_iff in Hin as [Hx Hy].
  apply list_elem_of_In, list_elem_of_fmap in Hx as ([x' nx] & -> & Hx).
  apply list_elem_of_In, list_elem_of_fmap in Hy as ([y' ny] & -> & Hy).
  apply elem_of_resolve in Hx as [Hx Hlx]. apply elem_of_resolve in Hy as [Hy Hly].
  simpl in Heq. destruct (rq_from_first q); simplify_eq; eauto 10.
Qed.

Lemma rel_queries_schema q :
  q ∈ rel_queries →
  rel_schema (rq_type q) =
    (if rq_from_first q then ep_label (rq_first q) else ep_label (rq_second q),
     if rq_from_first q then ep_label (rq_second q) else ep_label (rq_first q)) ∧
  (rq_type q ≠ COVERED_BY → rq_set q = []) ∧
  (∀ k, k ∈ (rq_set q).*1 → k = "service_date" ∨ k = "billing_amount").
Proof.
  unfold rel_queries. rewrite !elem_of_cons, elem_of_nil.
  intros [->|[->|[->|[->|[->|[]]]]]]; (split_and!; [done|done|]); simpl; intros k;
    rewrite ?elem_of_cons, elem_of_nil; tauto.
Qed.

(** One relationship merge keeps the ontology, when its ends have it. *)
Lemma merge_rel_typed t r sets σ a b :
  typed σ ∧ (∀ e, e ∈ rels σ → rel_props_ok e) →
  (∃ p h, nodes σ !! a = Some p ∧ nodes σ !! b = Some h ∧
          n_label p = (rel_schema t).1 ∧ n_label h = (rel_schema t).2) →
  (t ≠ COVERED_BY → sets = []) →
  (∀ k, k ∈ sets.*1 → k = "service_date" ∨ k = "billing_amount") →
  typed (merge_rel t r sets σ (a, b)) ∧
  (∀ e, e ∈ rels (merge_rel t r sets σ (a, b)) → rel_props_ok e).
Proof.
  intros [Hty Hpr] Hab Hsets Hkeys.
  change (merge_rel t r sets σ (a, b)) with
    (Store (nodes σ)
       (upsert (rel_matches t a b) (set_rel r sets) (Rel t a b ∅) (rels σ))
       (constraints σ)).
  assert (∀ x, rel_props_ok x → r_type x = t → rel_props_ok (set_rel r sets x)) as Hset.
  { intros x Hx Ht k Hk. simpl in *. apply apply_sets_dom in Hk as [Hk|Hk]; [by apply Hx|].
    split; [|by apply Hkeys]. destruct (decide (t = COVERED_BY)) as [->|Hne]; [done|].
    rewrite (Hsets Hne) in Hk. by apply elem_of_nil in Hk. }
  split; simpl.
  - intros e He. apply list_elem_of_lookup in He as [i Hi].
    apply upsert_lookup_inv in Hi as [(x & Hx & ->)|(-> & _ & ->)].
    + destruct (rel_upd_fields (rel_matches t a b x) r sets x) as (-> & -> & ->).
      apply Hty. by eapply list_elem_of_lookup_2.
    + done.
  - intros e He. apply list_elem_of_lookup in He as [i Hi].
    apply upsert_lookup_inv in Hi as [(x & Hx & ->)|(-> & _ & ->)].
    + assert (rel_props_ok x) as Hok by (apply Hpr; by eapply list_elem_of_lookup_2).
      destruct (rel_matches t a b x) eqn:Hm; [|done]. apply Hset; [done|].
      unfold rel_matches in Hm. rewrite !andb_true_iff, bool_decide_eq_true in Hm.
      by destruct Hm as [[? _] _].
    + apply Hset; [|done]. intros k. simpl. rewrite lookup_empty. by intros [? ?].
Qed.

Lemma foldl_merge_rel_typed t r sets σ abs :
  typed σ ∧ (∀ e, e ∈ rels σ → rel_props_ok e) →
  (∀ a b, (a, b) ∈ abs →
     ∃ p h, nodes σ !! a = Some p ∧ nodes σ !! b = Some h ∧
            n_label p = (rel_schema t).1 ∧ n_label h = (rel_schema t).2) →
  (t ≠ COVERED_BY → sets = []) →
  (∀ k, k ∈ sets.*1 → k = "service_date" ∨ k = "billing_amount") →
  typed (foldl (merge_rel t r sets) σ abs) ∧
  (∀ e, e ∈ rels (foldl (merge_rel t r sets) σ abs) → rel_props_ok e).
Proof.
  revert σ. induction abs as [|[a b] abs IH]; intros σ Hinv Hab Hsets Hkeys; [done|].
  simpl. apply IH; [|intros a' b' Hin; rewrite merge_rel_nodes; apply Hab; by right|done..].
  apply merge_rel_typed; [done|apply Hab; by left|done..].
Qed.

Lemma exec_typed src s σ σ' :
  s ∈ pipeline → exec_stmt src s σ = inl σ' →
  typed σ ∧ (∀ e, e ∈ rels σ → rel_props_ok e) →
  typed σ' ∧ (∀ e, e ∈ rels σ' → rel_props_ok e).
Proof.
  intros Hs Hexec [Hty Hpr].
  pose proof (exec_extends src s σ σ' Hs Hexec) as (Hext & _ & _).
  revert Hs. unfold pipeline. rewrite !elem_of_app. intros [Hs|[Hs|[Hs|Hs]]].
  - apply list_elem_of_fmap in Hs as (l & -> & _).
    apply create_constraint_inv in Hexec as (Hn & Hr & _ & _).
    unfold typed. by rewrite Hn, Hr.
  - apply list_elem_of_fmap in Hs as (q & -> & Hq). simpl in Hexec.
    assert (rels σ' = rels σ) as Hr by (by apply load_nodes_steps in Hexec as [_ ->]).
    unfold typed. rewrite Hr. split; [|done]. intros e He.
    destruct (Hty e He) as (p & h & Hp & Hh & Hlp & Hlh).
    destruct (Hext _ _ Hp) as (p' & Hp' & Hlp' & _).
    destruct (Hext _ _ Hh) as (h' & Hh' & Hlh' & _).
    exists p', h'. split_and!; [done|done|congruence..].
  - apply list_elem_of_fmap in Hs as (q & -> & Hq). simpl in Hexec. simplify_eq.
    destruct (rel_queries_schema q Hq) as (Hsch & Hsets & Hkeys).
    unfold load_rels. generalize (src (rq_csv q)). intros rows.
    assert (typed σ ∧ (∀ e, e ∈ rels σ → rel_props_ok e)) as Hinv by done.
    clear Hty Hpr Hext. revert σ Hinv.
    induction rows as [|r rows IH]; intros σ Hinv; [done|].
    simpl. apply IH. unfold merge_rel_row.
    apply foldl_merge_rel_typed; [done| |done..].
    intros a b Hab. rewrite Hsch. simpl. by apply elem_of_bound_pairs in Hab.
  - apply list_elem_of_singleton in Hs as ->. simpl in Hexec. simplify_eq.
    apply foldl_merge_rel_typed; [done| |done|by intros k ?%elem_of_nil].
    intros a b Hab. apply elem_of_employs_pairs in Hab as (p & h & ? & ? & ? & ? & _).
    by exists p, h.
Qed.

(** X2. In every store the pipeline can produce, both ends of every
    relationship are nodes of the store, of the kinds the relationship's
    statement names: HAS Patient to Visit, AT Visit to Hospital, TREATS
    Physician to Visit, COVERED_BY Visit to Payer, WRITES Visit to Review,
    EMPLOYS Physician to Hospital.  Only COVERED_BY relationships carry
    properties, and only [service_date] and [billing_amount]. *)
Theorem relationships_follow_schema σ :
  reachable σ →
  (∀ e, e ∈ rels σ →
     ∃ p h, nodes σ !! r_src e = Some p ∧ nodes σ !! r_dst e = Some h ∧
            n_label p = (rel_schema (r_type e)).1 ∧
            n_label h = (rel_schema (r_type e)).2) ∧
  (∀ e k, e ∈ rels σ → is_Some (r_props e !! k) →
     r_type e = COVERED_BY ∧ (k = "service_date" ∨ k = "billing_amount")).
Proof.
  intros Hreach.
  assert (typed σ ∧ (∀ e, e ∈ rels σ → rel_props_ok e)) as [Hty Hpr].
  { induction Hreach as [|σ src fault _ IH].
    - split; intros e He; by apply elem_of_nil in He.
    - apply (run_stmts_inv (λ σ0, typed σ0 ∧ (∀ e, e ∈ rels σ0 → rel_props_ok e)));
        [|done].
      intros s σ0 σ1 Hs Hinv Hexec. by apply (exec_typed src s σ0 σ1). }
  split; [done|]. intros e k He. by apply Hpr.
Qed.

(** A property of all entities that the steps keep. *)
Lemma run_steps_Forall {A} (P : A → Prop) (steps : list (step A)) (l : list A) :
  (∀ s, s ∈ steps → P (s_update s (s_new s))) →
  (∀ s x, s ∈ steps → P x → s_match s x = true → P (s_update s x)) →
  (∀ x, x ∈ l → P x) → ∀ x, x ∈ run_steps steps l → P x.
Proof.
  revert l. induction steps as [|s steps IH]; intros l Hnew Hupd Hl; [done|].
  simpl. apply IH.
  - intros s0 H0. apply Hnew. by right.
  - intros s0 x H0. apply Hupd. by right.
  - intros y Hy. apply list_elem_of_lookup in Hy as [i Hi].
    apply upsert_lookup_inv in Hi as [(x & Hx & ->)|(-> & _ & ->)].
    + assert (P x) as HPx by (apply Hl; by eapply list_elem_of_lookup_2).
      destruct (s_match s x) eqn:Hm; [|done]. apply Hupd; [by left|done..].
    + apply Hnew. by left.
Qed.

Lemma eval_pattern_keys r pat m k :
  eval_pattern r pat = Some m → k ∈ pat.*1 → is_Some (m !! k).
Proof.
  revert m. induction pat as [|[k' e] pat IH]; intros m; simpl.
  - intros _ Hk. by apply elem_of_nil in Hk.
  - destruct (eval r e) as [v|]; [|done].
    destruct (eval_pattern r pat) as [m0|]; [|done]. intros [= <-] Hk.
    destruct (decide (k = k')) as [->|Hne]; [by rewrite lookup_insert_eq|].
    rewrite lookup_insert_ne by done. apply (IH m0); [done|].
    apply elem_of_cons in Hk as [?|?]; [done|done].
Qed.

Lemma node_queries_label_inj q q' :
  q ∈ node_queries → q' ∈ node_queries → nq_label q = nq_label q' → q = q'.
Proof.
  unfold node_queries. rewrite !elem_of_cons, !elem_of_nil.
  intros [->|[->|[->|[->|[->|[->|[]]]]]]] [->|[->|[->|[->|[->|[->|[]]]]]]]; done.
Qed.

(** The properties of a node are those of the statement of its kind: all
    those of the MERGE pattern, and possibly those of the SET clause. *)
Definition node_conforms (n : node) : Prop :=
  ∃ q, q ∈ node_queries ∧ n_label n = nq_label q ∧
       (∀ k, k ∈ (nq_pattern q).*1 → is_Some (n_props n !! k)) ∧
       (∀ k, is_Some (n_props n !! k) → k ∈ (nq_pattern q).*1 ∨ k ∈ (nq_set q).*1).

Lemma set_node_conforms q r (x : node) :
  q ∈ node_queries → n_label x = nq_label q →
  (∀ k, k ∈ (nq_pattern q).*1 → is_Some (n_props x !! k)) →
  (∀ k, is_Some (n_props x !! k) → k ∈ (nq_pattern q).*1 ∨ k ∈ (nq_set q).*1) →
  node_conforms (set_node r (nq_set q) x).
Proof.
  intros Hq Hl Hpat Hdom. exists q. split_and!; [done|done|..]; simpl.
  - intros k Hk. rewrite apply_sets_other; [by apply Hpat|].
    by apply (node_queries_keys_apart q Hq).
  - intros k Hk. apply apply_sets_dom in Hk as [Hk|Hk]; [by apply Hdom|by right].
Qed.

Lemma exec_conforms src s σ σ' :
  s ∈ pipeline → exec_stmt src s σ = inl σ' →
  (∀ n, n ∈ nodes σ → node_conforms n) → ∀ n, n ∈ nodes σ' → node_conforms n.
Proof.
  unfold pipeline. rewrite !elem_of_app. intros [Hs|[Hs|[Hs|Hs]]] Hexec Hconf.
  - apply list_elem_of_fmap in Hs as (l & -> & _).
    apply create_constraint_inv in Hexec as (-> & _). done.
  - apply list_elem_of_fmap in Hs as (q & -> & Hq). simpl in Hexec.
    apply load_nodes_steps in Hexec as [_ ->]. simpl.
    apply run_steps_Forall; [| |done].
    + intros s Hs. apply elem_of_node_steps in Hs as (r & m & _ & Hm & ->). simpl.
      apply set_node_conforms; [done|done|..]; simpl.
      * intros k. by apply (eval_pattern_keys r).
      * intros k Hk. left. by apply (eval_pattern_dom r _ m).
    + intros s x Hs (q0 & Hq0 & Hl0 & Hpat & Hdom) Hmatch.
      apply elem_of_node_steps in Hs as (r & m & _ & Hm & ->). simpl in *.
      assert (n_label x = nq_label q) as Hl.
      { unfold node_matches in Hmatch.
        rewrite andb_true_iff, bool_decide_eq_true in Hmatch. by destruct Hmatch. }
      assert (q0 = q) as -> by (apply node_queries_label_inj; congruence).
      by apply set_node_conforms.
  - apply list_elem_of_fmap in Hs as (q & -> & _). simpl in Hexec. simplify_eq.
    by rewrite load_rels_nodes.
  - apply list_elem_of_singleton in Hs as ->. simpl in Hexec. simplify_eq.
    by rewrite infer_employs_nodes.
Qed.

(** X3. In every store the pipeline can produce, each node has an integer
    [id], has every property its kind's MERGE pattern names, and has no
    property beyond those of the pattern and of the SET clause of its
    kind's statement. *)
Theorem nodes_follow_schema σ :
  reachable σ →
  ∀ n, n ∈ nodes σ →
    (∃ z, node_id n = Some (VInt z)) ∧
    ∃ q, q ∈ node_queries ∧ n_label n = nq_label q ∧
         (∀ k, k ∈ (nq_pattern q).*1 → is_Some (n_props n !! k)) ∧
         (∀ k, is_Some (n_props n !! k) →
            k ∈ (nq_pattern q).*1 ∨ k ∈ (nq_set q).*1).
Proof.
  intros Hreach n Hn. split; [by apply (wf_int σ (reachable_wf σ Hreach))|].
  revert n Hn. induction Hreach as [|σ src fault _ IH].
  - intros n Hn. by apply elem_of_nil in Hn.
  - apply (run_stmts_inv (λ σ0, ∀ n, n ∈ nodes σ0 → node_conforms n)); [|done].
    intros s σ0 σ1 Hs Hinv Hexec. by apply (exec_conforms src s σ0 σ1).
Qed.

(** *** The constraints *)

Lemma exec_constraints src s σ σ' :
  s ∈ pipeline → exec_stmt src s σ = inl σ' →
  (∀ c, c ∈ constraints σ → c.2 = "id") ∧ NoDup (constraints σ) →
  (∀ c, c ∈ constraints σ' → c.2 = "id") ∧ NoDup (constraints σ').
Proof.
  unfold pipeline. rewrite !elem_of_app. intros [Hs|[Hs|[Hs|Hs]]] Hexec [Hid Hnd].
  - apply list_elem_of_fmap in Hs as (l & -> & _). simpl in Hexec.
    unfold _set_uniqueness_constraints, create_constraint in Hexec.
    case_bool_decide as Hin; [by simplify_eq|].
    destruct (unique_on l "id" (nodes σ)); [|done]. simplify_eq. simpl. split.
    + intros c Hc. apply elem_of_app in Hc as [Hc|Hc]; [by apply Hid|].
      by apply list_elem_of_singleton in Hc as ->.
    + apply NoDup_app. split_and!; [done| |apply NoDup_singleton].
      intros c Hc Hc'. by apply list_elem_of_singleton in Hc' as ->.
  - apply list_elem_of_fmap in Hs as (q & -> & _). simpl in Hexec.
    by apply load_nodes_steps in Hexec as [_ ->].
  - apply list_elem_of_fmap in Hs as (q & -> & _). simpl in Hexec. simplify_eq.
    by rewrite load_rels_constraints.
  - apply list_elem_of_singleton in Hs as ->. simpl in Hexec. simplify_eq.
    by rewrite infer_employs_constraints.
Qed.

(** X4. In every store the pipeline can produce, every constraint is a
    uniqueness constraint on [id], no constraint is declared twice, and as
    soon as the store has a node the constraints of all six kinds are in
    place. *)
Theorem constraints_before_data σ :
  reachable σ →
  (∀ c, c ∈ constraints σ → c.2 = "id") ∧ NoDup (constraints σ) ∧
  (nodes σ ≠ [] → ∀ l : NodeKind, (l, "id") ∈ constraints σ).
Proof.
  intros Hreach.
  assert ((∀ c, c ∈ constraints σ → c.2 = "id") ∧ NoDup (constraints σ)) as [Hid Hnd].
  { induction Hreach as [|σ src fault _ IH].
    - split; [intros c Hc; by apply elem_of_nil in Hc|apply NoDup_nil_2].
    - apply (run_stmts_inv
               (λ σ0, (∀ c, c ∈ constraints σ0 → c.2 = "id") ∧ NoDup (constraints σ0)));
        [|done].
      intros s σ0 σ1 Hs Hinv Hexec. by apply (exec_constraints src s σ0 σ1). }
  split_and!; [done|done|]. intros Hne.
  by destruct (wf_constraints σ (reachable_wf σ Hreach)).
Qed.

(** X5. Declaring a constraint never fails on a store the pipeline can
    produce, changes neither nodes nor relationships, and is idempotent:
    declared again on its own result it leaves that result as it is. *)
Theorem set_uniqueness_constraints_safe σ (l : NodeKind) :
  reachable σ →
  ∃ σ', _set_uniqueness_constraints l σ = inl σ' ∧
        nodes σ' = nodes σ ∧ rels σ' = rels σ ∧ (l, "id") ∈ constraints σ' ∧
        _set_uniqueness_constraints l σ' = inl σ'.
Proof.
  intros Hreach.
  assert (∃ σ', _set_uniqueness_constraints l σ = inl σ') as [σ' Hσ'].
  { unfold _set_uniqueness_constraints, create_constraint.
    case_bool_decide as Hin; [by eauto|].
    destruct (wf_constraints σ (reachable_wf σ Hreach)) as [->|Hall]; [by eauto|].
    by destruct Hin. }
  exists σ'. split; [done|].
  destruct (create_constraint_inv _ _ _ _ Hσ') as (Hn & Hr & Hin & _).
  split_and!; [done..|].
  unfold _set_uniqueness_constraints, create_constraint.
  by rewrite bool_decide_eq_true_2.
Qed.

(** *** Where an attempt can fail *)






(** *** Each statement writes one part of the store *)

(** X8. A relationship load and the inference never create or change a
    node and never touch the constraints: a record that names a node that
    is not loaded adds no node.  A node load never creates or changes a
    relationship and never touches the constraints. *)
Theorem loads_are_separate :
  (∀ q rows σ, nodes (load_rels q rows σ) = nodes σ ∧
               constraints (load_rels q rows σ) = constraints σ) ∧
  (∀ σ, nodes (infer_employs σ) = nodes σ ∧
        constraints (infer_employs σ) = constraints σ) ∧
  (∀ q rows σ σ', load_nodes q rows σ = inl σ' →
                  rels σ' = rels σ ∧ constraints σ' = constraints σ).
Proof.
  split_and!.
  - intros q rows σ. by rewrite load_rels_nodes, load_rels_constraints.
  - intros σ. by rewrite infer_employs_nodes, infer_employs_constraints.
  - intros q rows σ σ' Hload. by apply load_nodes_steps in Hload as [_ ->].
Qed.

(** *** The Visit load: MERGE on the identifier, then SET *)





Lemma load_nodes_cons q r rows σ :
  load_nodes q (r :: rows) σ =
  match merge_node_row (nq_label q) (nq_pattern q) (nq_set q) r σ with
  | inl σ' => load_nodes q rows σ'
  | inr e => inr e
  end.
Proof. done. Qed.

Lemma load_nodes_app q rows1 rows2 σ :
  load_nodes q (rows1 ++ rows2) σ =
  match load_nodes q rows1 σ with
  | inl σ1 => load_nodes q rows2 σ1
  | inr e => inr e
  end.
Proof.
  revert σ. induction rows1 as [|r rows1 IH]; intros σ; [done|].
  simpl. destruct (merge_node_row _ _ _ r σ); [apply IH|done].
Qed.




(** *** Sources that load without error *)














(** *** Loading again *)

(** X13. Loading a source in which every record comes a second time (the
    rows followed by the same rows) gives the store of loading it once:
    repeated records add no node and no relationship.  For a node load
    this holds whenever the load of the rows goes through. *)
Theorem repeated_records_add_nothing :
  (∀ q rows σ, load_rels q (rows ++ rows) σ = load_rels q rows σ) ∧
  (∀ q rows σ σ', q ∈ node_queries → load_nodes q rows σ = inl σ' →
     load_nodes q (rows ++ rows) σ = inl σ').
Proof.
  split.
  - intros q rows σ. unfold load_rels. rewrite foldl_app. fold (load_rels q rows σ).
    fold (load_rels q rows (load_rels q rows σ)).
    assert (exec_stmt (λ _, rows) (LoadRels q) (load_rels q rows σ) =
            inl (load_rels q rows σ)) as Hexec; [|simpl in Hexec; congruence].
    apply stable_exec; [done|]. by apply (exec_stable (λ _, rows) (LoadRels q) σ).
  - intros q rows σ σ' Hq Hload. rewrite load_nodes_app, Hload.
    apply (stable_exec (λ _, rows) (LoadNodes q) σ');
      [by apply node_queries_keys_apart|].
    apply (exec_stable (λ _, rows) (LoadNodes q) σ); [|done].
    by apply node_queries_keys_apart.
Qed.


(** *** Each statement works on its own kind *)

(** X15. A relationship load only creates or changes relationships of
    its own kind, and so does the inference: the relationships of every
    other kind are the same, at the same positions, before and after.  A
    node load that goes through only creates or changes nodes of its own
    kind. *)
Theorem loads_keep_other_kinds :
  (∀ q rows σ i e, r_type e ≠ rq_type q →
     (rels σ !! i = Some e ↔ rels (load_rels q rows σ) !! i = Some e)) ∧
  (∀ σ i e, r_type e ≠ EMPLOYS →
     (rels σ !! i = Some e ↔ rels (infer_employs σ) !! i = Some e)) ∧
  (∀ q rows σ σ' i n, load_nodes q rows σ = inl σ' → n_label n ≠ nq_label q →
     (nodes σ !! i = Some n ↔ nodes σ' !! i = Some n)).
Proof.
  split_and!.
  - intros q rows σ i e Hne. rewrite load_rels_steps. simpl.
    apply (rel_steps_agree (r_type e) (rq_type q) (rq_set q)
             (rel_steps q rows σ) (rels σ) Hne); [|by apply bool_decide_eq_true].
    intros s Hs. apply elem_of_rel_steps in Hs as (r & ab & _ & _ & ->). eauto.
  - intros σ i e Hne. rewrite infer_employs_steps. simpl.
    apply (rel_steps_agree (r_type e) EMPLOYS [] (employs_steps σ) (rels σ) Hne);
      [|by apply bool_decide_eq_true].
    intros s Hs. apply list_elem_of_fmap in Hs as (ab & -> & _). eauto.
  - intros q rows σ σ' i n Hload Hne. apply load_nodes_steps in Hload as [_ ->]. simpl.
    apply (run_steps_agree (λ x, bool_decide (n_label x = n_label n))
             (λ x, bool_decide (n_label x = nq_label q)));
      [| | | |by apply bool_decide_eq_true].
    + intros x. rewrite bool_decide_eq_true, bool_decide_eq_false. congruence.
    + intros s x Hs Hm. apply bool_decide_eq_true.
      by apply (node_steps_label q rows s x Hs).
    + intros s x Hs. by destruct (node_steps_label q rows s x Hs) as (_ & -> & _).
    + intros s Hs. apply bool_decide_eq_true.
      by apply (node_steps_label q rows s (s_new s) Hs).
Qed.

(** *** One record, at most one node or relationship *)

Lemma filter_at_most_one {A} (p : A → bool) (l : list A) :
  (∀ i j y z, l !! i = Some y → l !! j = Some z → p y = true → p z = true → i = j) →
  (length (List.filter p l) ≤ 1)%nat.
Proof.
  intros Huniq. destruct (List.filter p l) as [|x xs] eqn:Hf; [simpl; lia|].
  assert (In x (List.filter p l)) as Hx by (rewrite Hf; by left).
  apply filter_In in Hx as [Hx Hpx]. apply list_elem_of_In in Hx.
  rewrite (filter_singleton p l x Huniq Hx Hpx) in Hf. by simplify_eq.
Qed.

Lemma resolve_at_most_one ep r σ :
  id_unique σ → ep_key ep = "id" → (length (resolve ep r σ) ≤ 1)%nat.
Proof.
  intros Huniq Hkey. unfold resolve, match_prop.
  destruct (eval r (ep_value ep)) as [v|]; [|simpl; lia]. rewrite Hkey.
  unfold matches. apply filter_at_most_one.
  intros i j [i' x] [j' y] Hi Hj Hx Hy. simpl in *.
  apply list_lookup_imap_Some in Hi as (x' & Hi & Hix).
  apply list_lookup_imap_Some in Hj as (y' & Hj & Hjy).
  simplify_eq. unfold node_matches in Hx, Hy.
  rewrite andb_true_iff, !bool_decide_eq_true, map_Forall_singleton in Hx, Hy.
  destruct Hx as [Hlx Hvx], Hy as [Hly Hvy].
  eapply (Huniq i j); [exact Hi|exact Hj|congruence|exact Hvx|exact Hvy].
Qed.

Lemma rel_queries_keys q :
  q ∈ rel_queries → ep_key (rq_first q) = "id" ∧ ep_key (rq_second q) = "id".
Proof.
  unfold rel_queries. rewrite !elem_of_cons, elem_of_nil.
  by intros [->|[->|[->|[->|[->|[]]]]]].
Qed.

Lemma upsert_length_le {A} (p : A → bool) u x0 (l : list A) :
  (length l ≤ length (upsert p u x0 l) ≤ S (length l))%nat.
Proof.
  unfold upsert. destruct (existsb p l).
  - rewrite length_map. lia.
  - rewrite length_app. simpl. lia.
Qed.

(** X16. On a store the pipeline can produce, a relationship record binds
    at most one pair of nodes and adds at most one relationship (none when
    the relationship is there already or an end does not resolve).  A node
    load that goes through adds at most one node per record. *)
Theorem one_record_one_entity :
  (∀ σ q r, reachable σ → q ∈ rel_queries →
     (length (bound_pairs q r σ) ≤ 1)%nat ∧
     (length (rels σ) ≤ length (rels (merge_rel_row q σ r)) ≤ S (length (rels σ)))%nat) ∧
  (∀ q rows σ σ', load_nodes q rows σ = inl σ' →
     (length (nodes σ) ≤ length (nodes σ') ≤ length (nodes σ) + length rows)%nat).
Proof.
  split.
  - intros σ q r Hreach Hq.
    pose proof (wf_unique σ (reachable_wf σ Hreach)) as Huniq.
    destruct (rel_queries_keys q Hq) as [Hk1 Hk2].
    assert (length (bound_pairs q r σ) ≤ 1)%nat as Hlen.
    { unfold bound_pairs. rewrite length_fmap, length_prod, !length_fmap.
      pose proof (resolve_at_most_one (rq_first q) r σ Huniq Hk1).
      pose proof (resolve_at_most_one (rq_second q) r σ Huniq Hk2). nia. }
    split; [done|]. unfold merge_rel_row.
    destruct (bound_pairs q r σ) as [|ab [|ab' abs]]; simpl in *; [lia| |lia].
    apply upsert_length_le.
  - intros q rows. induction rows as [|r rows IH]; intros σ σ'.
    + intros [= <-]. simpl. lia.
    + rewrite load_nodes_cons. unfold merge_node_row.
      destruct (eval_pattern r (nq_pattern q)) as [m|]; [|done].
      destruct (negb _ && _); [done|]. intros Hload. apply IH in Hload. simpl in *.
      pose proof (upsert_length_le (node_matches (nq_label q) m)
                    (set_node r (nq_set q)) (Node (nq_label q) m) (nodes σ)). lia.
Qed.

End Further.

(** ** Further examples *)

Module FurtherExamples.
Import Sample.





Lemma relationships_follow_schema_witness :
  reachable demo_store ∧ typed demo_store.
Proof.
  split; [exact Examples.demo_store_reachable|].
  exact (proj1 (relationships_follow_schema demo_store
                  Examples.demo_store_reachable)).
Defined.

Lemma nodes_follow_schema_witness :
  reachable demo_store ∧
  ∀ n, n ∈ nodes demo_store → ∃ z, node_id n = Some (VInt z).
Proof.
  split; [exact Examples.demo_store_reachable|]. intros n Hn.
  exact (proj1 (nodes_follow_schema demo_store Examples.demo_store_reachable n Hn)).
Defined.

Lemma constraints_before_data_witness :
  reachable demo_store ∧ NoDup (constraints demo_store).
Proof.
  split; [exact Examples.demo_store_reachable|].
  exact (proj1 (proj2 (constraints_before_data demo_store
                         Examples.demo_store_reachable))).
Defined.

Lemma set_uniqueness_constraints_safe_witness :
  reachable demo_store ∧
  ∃ σ', _set_uniqueness_constraints Visit demo_store = inl σ' ∧
        nodes σ' = nodes demo_store.
Proof.
  split; [exact Examples.demo_store_reachable|].
  destruct (set_uniqueness_constraints_safe demo_store Visit
              Examples.demo_store_reachable) as (σ' & H1 & H2 & _).
  exists σ'. split; [exact H1|exact H2].
Defined.







End FurtherExamples.
